(** * Edge-function and secret store of supafast-mcp

    A shallow embedding of [src/tools/edge-functions.ts]: the env-file codec
    ([parseEnvFile], [serializeEnvFile]), the secret handlers, the function
    handlers and the runtime controller, over an explicit model of the
    process environment and of the file system, followed by the properties
    of the store. *)

From Stdlib Require Import List NArith ZArith Lia Bool Ascii String DecimalString.
Import ListNotations.

Set Implicit Arguments.

(** ** JavaScript strings

    A JavaScript string is a sequence of UTF-16 code units; [length],
    [slice], [indexOf] and the regular expressions of the source all count
    and match code units.  Literals of the source that are plain ASCII are
    written with [lit]. *)

Module JS.

Definition code_unit := N.
Definition jsstring := list code_unit.

Definition ch (a : ascii) : code_unit := N_of_ascii a.
Definition lit (s : string) : jsstring := map N_of_ascii (list_ascii_of_string s).
Arguments ch a%_char.
Arguments lit s%_string.

Definition LF : code_unit := 10%N.
Definition dquote : code_unit := 34%N.
Definition squote : code_unit := 39%N.
Definition backslash : code_unit := 92%N.
Definition hash : code_unit := 35%N.
Definition dollar : code_unit := 36%N.
Definition equals : code_unit := 61%N.
Definition underscore : code_unit := 95%N.
(** U+2022 BULLET, the mask character of [handleListSecrets]. *)
Definition bullet : code_unit := 0x2022%N.
(** U+2014 EM DASH, in the notes of the handlers. *)
Definition emdash : code_unit := 0x2014%N.

Fixpoint str_eqb (a b : jsstring) : bool :=
  match a, b with
  | [], [] => true
  | x :: a', y :: b' => (x =? y)%N && str_eqb a' b'
  | _, _ => false
  end.

(** ECMAScript WhiteSpace and LineTerminator code points: the set matched by
    [\s] in a regular expression and removed by [String.prototype.trim]. *)
Definition isWhiteSpace (c : code_unit) : bool :=
  ((c =? 9) || (c =? 10) || (c =? 11) || (c =? 12) || (c =? 13) || (c =? 32)
   || (c =? 0xA0) || (c =? 0x1680) || ((0x2000 <=? c) && (c <=? 0x200A))
   || (c =? 0x2028) || (c =? 0x2029) || (c =? 0x202F) || (c =? 0x205F)
   || (c =? 0x3000) || (c =? 0xFEFF))%N.

Fixpoint trimStart (s : jsstring) : jsstring :=
  match s with
  | [] => []
  | c :: s' => if isWhiteSpace c then trimStart s' else s
  end.

Definition trimEnd (s : jsstring) : jsstring := rev (trimStart (rev s)).

Definition trim (s : jsstring) : jsstring := trimEnd (trimStart s).

(** [s.split(sep)] for a one-unit separator: never the empty array. *)
Fixpoint split (sep : code_unit) (s : jsstring) : list jsstring :=
  match s with
  | [] => [[]]
  | c :: s' =>
      if (c =? sep)%N then [] :: split sep s'
      else match split sep s' with
           | l :: ls => (c :: l) :: ls
           | [] => [[c]]
           end
  end.

(** [lines.join(sep)]. *)
Fixpoint join (sep : jsstring) (l : list jsstring) : jsstring :=
  match l with
  | [] => []
  | [x] => x
  | x :: rest => x ++ sep ++ join sep rest
  end.

(** [s.indexOf(c)] for a one-unit search string: [-1] when absent. *)
Fixpoint indexOf (c : code_unit) (s : jsstring) : Z :=
  match s with
  | [] => (-1)%Z
  | x :: s' =>
      if (x =? c)%N then 0%Z
      else let i := indexOf c s' in
           if (i <? 0)%Z then (-1)%Z else (i + 1)%Z
  end.

Definition strlen (s : jsstring) : Z := Z.of_nat (List.length s).

(** Relative index of [slice]: negative counts from the end, then clamp. *)
Definition clampIndex (len i : Z) : Z :=
  if (i <? 0)%Z then Z.max (len + i) 0 else Z.min i len.

(** [s.slice(start, end)]. *)
Definition slice (s : jsstring) (start end_ : Z) : jsstring :=
  let len := strlen s in
  let from := clampIndex len start in
  let to := clampIndex len end_ in
  firstn (Z.to_nat (to - from)) (skipn (Z.to_nat from) s).

(** [s.slice(start)]. *)
Definition sliceFrom (s : jsstring) (start : Z) : jsstring :=
  slice s start (strlen s).

Fixpoint startsWith (s p : jsstring) : bool :=
  match p, s with
  | [], _ => true
  | _ :: _, [] => false
  | a :: p', b :: s' => (a =? b)%N && startsWith s' p'
  end.

Definition endsWith (s p : jsstring) : bool := startsWith (rev s) (rev p).

(** [s.replace(/c/g, r)] for a pattern of one literal code unit and a
    replacement without [$] patterns. *)
Definition replaceAll (c : code_unit) (r : jsstring) (s : jsstring) : jsstring :=
  flat_map (fun x => if (x =? c)%N then r else [x]) s.

(** [!s] on a string: only the empty string is falsy. *)
Definition isEmpty (s : jsstring) : bool :=
  match s with [] => true | _ => false end.

(** *** [Map<string, string>]

    A JavaScript [Map] iterates in insertion order; [set] on a present key
    replaces the value in place, [set] on an absent key appends. *)

Definition JsMap := list (jsstring * jsstring).

Fixpoint map_has (k : jsstring) (m : JsMap) : bool :=
  match m with
  | [] => false
  | (k', _) :: m' => str_eqb k' k || map_has k m'
  end.


Fixpoint map_set (k v : jsstring) (m : JsMap) : JsMap :=
  match m with
  | [] => [(k, v)]
  | (k', v') :: m' =>
      if str_eqb k' k then (k', v) :: m' else (k', v') :: map_set k v m'
  end.

Fixpoint map_delete (k : jsstring) (m : JsMap) : JsMap :=
  match m with
  | [] => []
  | (k', v') :: m' =>
      if str_eqb k' k then m' else (k', v') :: map_delete k m'
  end.

End JS.

Import JS.

(** ** The env-file codec *)

Module EnvFile.

(** Body of the loop of [parseEnvFile], one line at a time. *)
Definition parseLine (env : JsMap) (line : jsstring) : JsMap :=
  let trimmed := trim line in
  if isEmpty trimmed || startsWith trimmed [hash] then env
  else
    let eqIndex := indexOf equals trimmed in
    if (eqIndex =? -1)%Z then env
    else
      let key := trim (slice trimmed 0 eqIndex) in
      let value := trim (sliceFrom trimmed (eqIndex + 1)) in
      let value :=
        if (startsWith value [dquote] && endsWith value [dquote])
           || (startsWith value [squote] && endsWith value [squote])
        then slice value 1 (-1)
        else value in
      map_set key value env.

Definition parseEnvFile (content : jsstring) : JsMap :=
  fold_left parseLine (split LF content) [].

(** The character class of the quoting test: white space, hash, double
    quote, single quote, backslash and dollar. *)
Definition isSpecial (c : code_unit) : bool :=
  isWhiteSpace c
  || (c =? hash)%N || (c =? dquote)%N || (c =? squote)%N
  || (c =? backslash)%N || (c =? dollar)%N.

(** The quoting test of [serializeEnvFile], a regular-expression [test]
    that succeeds when some code unit of [value] is in the class. *)
Definition needsQuoting (value : jsstring) : bool := existsb isSpecial value.

(** The two chained [replace] calls: every backslash is doubled, then every
    double quote is preceded by a backslash. *)
Definition escapeValue (value : jsstring) : jsstring :=
  replaceAll dquote [backslash; dquote]
    (replaceAll backslash [backslash; backslash] value).

(** Body of the loop of [serializeEnvFile]: one [lines.push]. *)
Definition serializeEntry (lines : list jsstring) (kv : jsstring * jsstring)
  : list jsstring :=
  let '(key, value) := kv in
  if needsQuoting value
  then lines ++ [key ++ [equals] ++ [dquote] ++ escapeValue value ++ [dquote]]
  else lines ++ [key ++ [equals] ++ value].

Definition serializeEnvFile (env : JsMap) : jsstring :=
  join [LF] (fold_left serializeEntry env []) ++ [LF].

(** [/^[A-Za-z_][A-Za-z0-9_]*$/.test(key)]. *)
Definition isAlpha (c : code_unit) : bool :=
  (((65 <=? c) && (c <=? 90)) || ((97 <=? c) && (c <=? 122)))%N.
Definition isDigit (c : code_unit) : bool := ((48 <=? c) && (c <=? 57))%N.
Definition isKeyStart (c : code_unit) : bool := isAlpha c || (c =? underscore)%N.
Definition isKeyChar (c : code_unit) : bool := isKeyStart c || isDigit c.

Definition validKey (key : jsstring) : bool :=
  match key with
  | [] => false
  | c :: rest => isKeyStart c && forallb isKeyChar rest
  end.

End EnvFile.

Import EnvFile.

(** ** The process environment and the file system

    The handlers run against the process environment, the file system, the
    container runtime and the backend connection.  [World] holds what they
    can observe of these and a journal of the calls they make.

    A path is kept in resolved form, the list of its segments below the root
    of the file system; [path_join] is [path.join] together with the
    resolution of the result.  A file holds the text that [readFileSync]
    with the utf8 encoding returns for it.  [logInfo] and [logError]
    (utils/logger) only write to the log and are left out. *)

Module Sys.

Definition Path := list jsstring.

Definition slash : code_unit := 47%N.

(** One segment of a path applied to a location. *)
Definition path_step (p : Path) (seg : jsstring) : Path :=
  if isEmpty seg || str_eqb seg (lit ".") then p
  else if str_eqb seg (lit "..") then removelast p
  else p ++ [seg].

(** [path.join(dir, name)]: the segments of [name] are applied below [dir],
    also when [name] starts with a slash. *)
Definition path_join (dir : Path) (name : jsstring) : Path :=
  fold_left path_step (split slash name) dir.

(** Resolution of a path given as text: from the root when it starts with a
    slash, from the working directory otherwise. *)
Definition path_resolve (cwd : Path) (p : jsstring) : Path :=
  if startsWith p [slash] then path_join [] p else path_join cwd p.

#[local] Set Warnings "-register-all".
Inductive Node : Type :=
| File (content : jsstring) (mtime : N)
| Dir (mtime : N) (entries : list (jsstring * Node)).

Inductive Errno := ENOENT | EISDIR | ENOTDIR | EEXIST | EBUSY.

Inductive Syscall := sys_open | sys_stat | sys_mkdir | sys_scandir | sys_rm.

Inductive Error :=
| Err (message : jsstring)
| TypeError (message : jsstring)
| RangeError (message : jsstring)
| SystemError (code : Errno) (syscall : Syscall) (path : Path)
| ExecError (command : jsstring).

Record Dirent := { d_name : jsstring; isDirectory : bool }.

(** What a call gives: a value, or the exception it throws. *)
Inductive Result (A : Type) :=
| Ok (a : A)
| Throw (e : Error).
Arguments Ok {A} a.
Arguments Throw {A} e.

(** The backend client of [utils/connection], which is outside the sources:
    each of its calls either returns or throws.  A JSON value is kept as its
    text. *)
Definition Json := jsstring.

Record InvokeOptions := {
  body : option Json;
  headers : option (list (jsstring * jsstring))
}.

(** [{ data, error }] as resolved by [supabase.functions.invoke], or the
    rejection of the promise. *)
Record InvokeResponse := {
  data : Json;
  error : option jsstring
}.

Record SupabaseClient := {
  functions_invoke : jsstring -> InvokeOptions -> Result InvokeResponse
}.

Record Connection := {
  getSupabaseClient : Result SupabaseClient
}.

Inductive Event :=
| EvExists (p : Path)
| EvReadFile (p : Path)
| EvWriteFile (p : Path) (data : jsstring)
| EvMkdir (p : Path)
| EvReaddir (p : Path)
| EvStat (p : Path)
| EvRm (p : Path)
| EvExec (command : jsstring)
| EvInvoke (name : jsstring).

Record World := {
  SUPABASE_FUNCTIONS_DIR : option jsstring;
  cwd : Path;
  root : Node;
  now : N;
  (** whether [docker restart] would succeed within its timeout *)
  dockerRestarts : bool;
  getConnection : Result Connection;
  journal : list Event
}.

Definition with_root (w : World) (r : Node) : World :=
  {| SUPABASE_FUNCTIONS_DIR := SUPABASE_FUNCTIONS_DIR w; cwd := cwd w;
     root := r; now := now w; dockerRestarts := dockerRestarts w;
     getConnection := getConnection w; journal := journal w |}.

Definition record (ev : Event) (w : World) : World :=
  {| SUPABASE_FUNCTIONS_DIR := SUPABASE_FUNCTIONS_DIR w; cwd := cwd w;
     root := root w; now := now w; dockerRestarts := dockerRestarts w;
     getConnection := getConnection w; journal := journal w ++ [ev] |}.

(** *** The tree of files *)

Fixpoint assoc (k : jsstring) (es : list (jsstring * Node)) : option Node :=
  match es with
  | [] => None
  | (k', n) :: es' => if str_eqb k' k then Some n else assoc k es'
  end.

Fixpoint assoc_set (k : jsstring) (n : Node) (es : list (jsstring * Node))
  : list (jsstring * Node) :=
  match es with
  | [] => [(k, n)]
  | (k', n') :: es' =>
      if str_eqb k' k then (k', n) :: es' else (k', n') :: assoc_set k n es'
  end.

Fixpoint assoc_remove (k : jsstring) (es : list (jsstring * Node))
  : list (jsstring * Node) :=
  match es with
  | [] => []
  | (k', n') :: es' =>
      if str_eqb k' k then es' else (k', n') :: assoc_remove k es'
  end.

Fixpoint lookup (n : Node) (p : Path) : option Node :=
  match p with
  | [] => Some n
  | s :: p' =>
      match n with
      | File _ _ => None
      | Dir _ es =>
          match assoc s es with
          | Some c => lookup c p'
          | None => None
          end
      end
  end.

(** Writing a file: the parent must be a directory, the target must not. *)
Fixpoint writeAt (n : Node) (p : Path) (text : jsstring) (t : N)
  : Errno + Node :=
  match p with
  | [] =>
      match n with
      | File _ _ => inr (File text t)
      | Dir _ _ => inl EISDIR
      end
  | s :: p' =>
      match n with
      | File _ _ => inl ENOTDIR
      | Dir m es =>
          match assoc s es with
          | Some c =>
              match writeAt c p' text t with
              | inl e => inl e
              | inr c' => inr (Dir m (assoc_set s c' es))
              end
          | None =>
              match p' with
              | [] => inr (Dir m (es ++ [(s, File text t)]))
              | _ :: _ => inl ENOENT
              end
          end
      end
  end.

Fixpoint freshDirs (p : Path) (t : N) : Node :=
  match p with
  | [] => Dir t []
  | s :: p' => Dir t [(s, freshDirs p' t)]
  end.

(** [mkdir] with the recursive option: missing directories are created, a
    directory that is there is left as it is, a file in the way is an
    error. *)
Fixpoint mkdirp (n : Node) (p : Path) (t : N) : Errno + Node :=
  match p with
  | [] =>
      match n with
      | File _ _ => inl EEXIST
      | Dir _ _ => inr n
      end
  | s :: p' =>
      match n with
      | File _ _ => inl ENOTDIR
      | Dir m es =>
          match assoc s es with
          | Some c =>
              match mkdirp c p' t with
              | inl e => inl e
              | inr c' => inr (Dir m (assoc_set s c' es))
              end
          | None => inr (Dir m (es ++ [(s, freshDirs p' t)]))
          end
      end
  end.

(** [rm] with the recursive and force options: what is not there is not an
    error. *)
Fixpoint rmrf (n : Node) (p : Path) : Errno + Node :=
  match p with
  | [] => inl EBUSY
  | s :: p' =>
      match n with
      | File _ _ => inr n
      | Dir m es =>
          match p' with
          | [] => inr (Dir m (assoc_remove s es))
          | _ :: _ =>
              match assoc s es with
              | Some c =>
                  match rmrf c p' with
                  | inl e => inl e
                  | inr c' => inr (Dir m (assoc_set s c' es))
                  end
              | None => inr n
              end
          end
      end
  end.

Definition node_mtime (n : Node) : N :=
  match n with File _ t => t | Dir t _ => t end.

Definition node_isDir (n : Node) : bool :=
  match n with File _ _ => false | Dir _ _ => true end.

(** *** The monad of the handlers: state and exceptions *)

Definition M (A : Type) : Type := World -> Result A * World.

Definition ret {A} (a : A) : M A := fun w => (Ok a, w).

Definition throw {A} (e : Error) : M A := fun w => (Throw e, w).

Definition bind {A B} (m : M A) (k : A -> M B) : M B :=
  fun w =>
    match m w with
    | (Ok a, w') => k a w'
    | (Throw e, w') => (Throw e, w')
    end.

(** [try { body } catch (error) { handler }]. *)
Definition tryCatch {A} (body : M A) (handler : Error -> M A) : M A :=
  fun w =>
    match body w with
    | (Ok a, w') => (Ok a, w')
    | (Throw e, w') => handler e w'
    end.

Definition lift {A} (r : Result A) : M A := fun w => (r, w).

Definition gets {A} (f : World -> A) : M A := fun w => (Ok (f w), w).

Definition emit (ev : Event) : M unit := fun w => (Ok tt, record ev w).

Fixpoint mapM {A B} (f : A -> M B) (l : list A) : M (list B) :=
  match l with
  | [] => ret []
  | x :: l' =>
      bind (f x) (fun y => bind (mapM f l') (fun ys => ret (y :: ys)))
  end.

End Sys.

Import Sys.

Declare Scope js_scope.
Delimit Scope js_scope with js.
Notation "x <- m ;; k" := (bind m (fun x => k))
  (at level 61, m at next level, right associativity) : js_scope.
Notation "m ;; k" := (bind m (fun _ => k))
  (at level 61, right associativity) : js_scope.
Open Scope js_scope.

(** ** The calls of [fs] and [child_process] *)

Module Fs.

Definition existsSync (p : Path) : M bool :=
  emit (EvExists p) ;;
  gets (fun w => match lookup (root w) p with Some _ => true | None => false end).

Definition readFileSync (p : Path) : M jsstring :=
  emit (EvReadFile p) ;;
  n <- gets (fun w => lookup (root w) p) ;;
  match n with
  | Some (File text _) => ret text
  | Some (Dir _ _) => throw (SystemError EISDIR sys_open p)
  | None => throw (SystemError ENOENT sys_open p)
  end.

Definition writeFileSync (p : Path) (text : jsstring) : M unit :=
  emit (EvWriteFile p text) ;;
  fun w =>
    match writeAt (root w) p text (now w) with
    | inl e => (Throw (SystemError e sys_open p), w)
    | inr r => (Ok tt, with_root w r)
    end.

(** [fs.mkdirSync(p, { recursive: true })]. *)
Definition mkdirSync (p : Path) : M unit :=
  emit (EvMkdir p) ;;
  fun w =>
    match mkdirp (root w) p (now w) with
    | inl e => (Throw (SystemError e sys_mkdir p), w)
    | inr r => (Ok tt, with_root w r)
    end.

(** [fs.readdirSync(p, { withFileTypes: true })]. *)
Definition readdirSync (p : Path) : M (list Dirent) :=
  emit (EvReaddir p) ;;
  n <- gets (fun w => lookup (root w) p) ;;
  match n with
  | Some (Dir _ es) =>
      ret (map (fun e => {| d_name := fst e; isDirectory := node_isDir (snd e) |}) es)
  | Some (File _ _) => throw (SystemError ENOTDIR sys_scandir p)
  | None => throw (SystemError ENOENT sys_scandir p)
  end.

(** [fs.statSync(p).mtime]. *)
Definition statSync (p : Path) : M N :=
  emit (EvStat p) ;;
  n <- gets (fun w => lookup (root w) p) ;;
  match n with
  | Some nd => ret (node_mtime nd)
  | None => throw (SystemError ENOENT sys_stat p)
  end.

(** [fs.rmSync(p, { recursive: true, force: true })]. *)
Definition rmSync (p : Path) : M unit :=
  emit (EvRm p) ;;
  fun w =>
    match rmrf (root w) p with
    | inl e => (Throw (SystemError e sys_rm p), w)
    | inr r => (Ok tt, with_root w r)
    end.

(** [execSync(command, { timeout: 30000 })]: a non-zero exit, a missing
    command and the timeout all throw. *)
Definition execSync (command : jsstring) : M unit :=
  emit (EvExec command) ;;
  ok <- gets dockerRestarts ;;
  if ok then ret tt else throw (ExecError command).

End Fs.

Import Fs.

(** ** The tool handlers *)

(** The argument of a handler has type [unknown]: the dispatcher passes
    [request.params.arguments], which a request may leave out.  An object
    has the fields the handler casts it to. *)
Inductive Unknown (T : Type) :=
| JsUndefined
| JsNull
| JsObject (o : T).
Arguments JsUndefined {T}.
Arguments JsNull {T}.
Arguments JsObject {T} o.

(** [const { prop, ... } = args]: destructuring [undefined] or [null]
    throws a [TypeError]. *)
Definition destructure {T} (prop : jsstring) (args : Unknown T) : M T :=
  match args with
  | JsObject o => ret o
  | JsUndefined =>
      throw (TypeError (lit "Cannot destructure property '" ++ prop
                        ++ lit "' of 'args' as it is undefined."))
  | JsNull =>
      throw (TypeError (lit "Cannot destructure property '" ++ prop
                        ++ lit "' of 'args' as it is null."))
  end.

Module CreateArgs.
Record t := {
  name : jsstring;
  source : jsstring;
  importMap : option (list (jsstring * jsstring));
  verifyJWT : option bool
}.
End CreateArgs.

Module DeleteArgs.
Record t := { name : jsstring }.
End DeleteArgs.

Module SetSecretArgs.
Record t := { key : jsstring; value : jsstring }.
End SetSecretArgs.

Module DeleteSecretArgs.
Record t := { key : jsstring }.
End DeleteSecretArgs.

Module InvokeArgs.
Record t := {
  name : jsstring;
  payload : option Json;
  headers : option (list (jsstring * jsstring))
}.
End InvokeArgs.

Module FunctionInfo.
Record t := {
  name : jsstring;
  hasIndex : bool;
  hasImportMap : bool;
  updatedAt : N
}.
End FunctionInfo.

Module SecretInfo.
Record t := {
  key : jsstring;
  value : jsstring;
  length : Z
}.
End SecretInfo.

(** The object a handler returns.  [Failure] is [{ success: false, error }],
    with the error whose message the field holds; every other constructor
    is an object with [success: true]. *)
Inductive Envelope :=
| Failure (error : Error)
| Deployed (message : jsstring) (path : Path) (verifyJWT : bool) (note : jsstring)
| FunctionList (functions : list FunctionInfo.t)
| FunctionDeleted (message : jsstring)
| SecretSaved (message : jsstring) (restarted : bool) (note : jsstring)
| SecretDeleted (message : jsstring) (restarted : bool) (note : jsstring)
| SecretList (secrets : list SecretInfo.t) (message : option jsstring)
| Invoked (result : Json) (message : jsstring).

Definition success (e : Envelope) : bool :=
  match e with Failure _ => false | _ => true end.

Definition getFunctionsDir : M Path :=
  dir <- gets SUPABASE_FUNCTIONS_DIR ;;
  match dir with
  | None => throw (Err (lit "SUPABASE_FUNCTIONS_DIR not set in environment"))
  | Some dir =>
      if isEmpty dir
      then throw (Err (lit "SUPABASE_FUNCTIONS_DIR not set in environment"))
      else
        here <- gets cwd ;;
        found <- existsSync (path_resolve here dir) ;;
        if negb found
        then throw (Err (lit "Functions directory not found: " ++ dir))
        else ret (path_resolve here dir)
  end.

Definition restartEdgeRuntime : M bool :=
  tryCatch
    (execSync (lit "sudo docker restart supabase-edge-functions") ;;
     ret true)
    (fun _ => ret false).

Definition getEnvPath : M Path :=
  dir <- getFunctionsDir ;;
  ret (path_join dir (lit ".env")).

Section CreateEdgeFunction.

(** [JSON.stringify({ imports: importMap }, null, 2)]. *)
Variable JSON_stringify_imports : list (jsstring * jsstring) -> jsstring.

(** [importMap && Object.keys(importMap).length > 0]. *)
Definition importMapSupplied (importMap : option (list (jsstring * jsstring)))
  : bool :=
  match importMap with
  | Some (_ :: _) => true
  | _ => false
  end.

Definition handleCreateEdgeFunction (args : Unknown CreateArgs.t) : M Envelope :=
  a <- destructure (lit "name") args ;;
  let name := CreateArgs.name a in
  let source := CreateArgs.source a in
  let importMap := CreateArgs.importMap a in
  let verifyJWT := CreateArgs.verifyJWT a in
  tryCatch
    (functionsDir <- getFunctionsDir ;;
     let fnDir := path_join functionsDir name in
     mkdirSync fnDir ;;
     writeFileSync (path_join fnDir (lit "index.ts")) source ;;
     (if importMapSupplied importMap
      then writeFileSync (path_join fnDir (lit "import_map.json"))
             (JSON_stringify_imports (match importMap with Some m => m | None => [] end))
      else ret tt) ;;
     ret (Deployed
            (lit "Edge Function '" ++ name ++ lit "' deployed successfully")
            fnDir
            (match verifyJWT with Some b => b | None => true end)
            (lit "Function is live immediately " ++ [emdash]
             ++ lit " the Edge Runtime hot-reloads on file changes")))
    (fun error => ret (Failure error)).

End CreateEdgeFunction.

Definition listEntry (functionsDir : Path) (e : Dirent) : M FunctionInfo.t :=
  let fnDir := path_join functionsDir (d_name e) in
  hasIndex <- existsSync (path_join fnDir (lit "index.ts")) ;;
  hasImportMap <- existsSync (path_join fnDir (lit "import_map.json")) ;;
  stat <- statSync (path_join fnDir (lit "index.ts")) ;;
  ret {| FunctionInfo.name := d_name e;
         FunctionInfo.hasIndex := hasIndex;
         FunctionInfo.hasImportMap := hasImportMap;
         FunctionInfo.updatedAt := stat |}.

Definition handleListEdgeFunctions : M Envelope :=
  tryCatch
    (functionsDir <- getFunctionsDir ;;
     entries <- readdirSync functionsDir ;;
     functions <- mapM (listEntry functionsDir) (filter isDirectory entries) ;;
     ret (FunctionList functions))
    (fun error => ret (Failure error)).

Definition handleDeleteEdgeFunction (args : Unknown DeleteArgs.t) : M Envelope :=
  a <- destructure (lit "name") args ;;
  let name := DeleteArgs.name a in
  tryCatch
    (functionsDir <- getFunctionsDir ;;
     let fnDir := path_join functionsDir name in
     found <- existsSync fnDir ;;
     if negb found
     then ret (Failure (Err (lit "Function '" ++ name ++ lit "' not found")))
     else
       rmSync fnDir ;;
       ret (FunctionDeleted
              (lit "Edge Function '" ++ name ++ lit "' deleted successfully")))
    (fun error => ret (Failure error)).

Definition handleSetSecret (args : Unknown SetSecretArgs.t) : M Envelope :=
  a <- destructure (lit "key") args ;;
  let key := SetSecretArgs.key a in
  let value := SetSecretArgs.value a in
  if negb (validKey key)
  then ret (Failure (Err (lit "Invalid key name. Use letters, numbers, and underscores only.")))
  else
    tryCatch
      (envPath <- getEnvPath ;;
       found <- existsSync envPath ;;
       env <- (if found
               then text <- readFileSync envPath ;; ret (parseEnvFile text)
               else ret []) ;;
       let existed := map_has key env in
       let env := map_set key value env in
       writeFileSync envPath (serializeEnvFile env) ;;
       restarted <- restartEdgeRuntime ;;
       ret (SecretSaved
              (lit "Secret '" ++ key ++ lit "' "
               ++ (if existed then lit "updated" else lit "created")
               ++ lit " successfully")
              restarted
              (if restarted
               then lit "Edge Runtime restarted " ++ [emdash] ++ lit " secret is live now"
               else lit "Secret saved but container restart failed. Run: docker restart supabase-edge-functions")))
      (fun error => ret (Failure error)).

Definition handleDeleteSecret (args : Unknown DeleteSecretArgs.t) : M Envelope :=
  a <- destructure (lit "key") args ;;
  let key := DeleteSecretArgs.key a in
  tryCatch
    (envPath <- getEnvPath ;;
     found <- existsSync envPath ;;
     if negb found
     then ret (Failure (Err (lit "No secrets file exists")))
     else
       text <- readFileSync envPath ;;
       let env := parseEnvFile text in
       if negb (map_has key env)
       then ret (Failure (Err (lit "Secret '" ++ key ++ lit "' not found")))
       else
         let env := map_delete key env in
         writeFileSync envPath (serializeEnvFile env) ;;
         restarted <- restartEdgeRuntime ;;
         ret (SecretDeleted
                (lit "Secret '" ++ key ++ lit "' deleted successfully")
                restarted
                (if restarted
                 then lit "Edge Runtime restarted " ++ [emdash] ++ lit " secret removed"
                 else lit "Secret removed but container restart failed. Run: docker restart supabase-edge-functions")))
    (fun error => ret (Failure error)).

(** [s.repeat(count)]: a negative count throws a [RangeError]. *)
Definition str_repeat (s : jsstring) (count : Z) : M jsstring :=
  if (count <? 0)%Z
  then throw (RangeError (lit "Invalid count value: "
                          ++ lit (NilZero.string_of_int (Z.to_int count))))
  else ret (List.concat (repeat s (Z.to_nat count))).

(** The callback of [Array.from(env.entries()).map] in [handleListSecrets]. *)
Definition maskEntry (kv : jsstring * jsstring) : M SecretInfo.t :=
  let '(key, value) := kv in
  dots <- str_repeat [bullet] (Z.min (strlen value - 3) 20) ;;
  ret {| SecretInfo.key := key;
         SecretInfo.value := slice value 0 3 ++ dots;
         SecretInfo.length := strlen value |}.

Definition handleListSecrets : M Envelope :=
  tryCatch
    (envPath <- getEnvPath ;;
     found <- existsSync envPath ;;
     if negb found
     then ret (SecretList [] (Some (lit "No secrets configured")))
     else
       text <- readFileSync envPath ;;
       let env := parseEnvFile text in
       secrets <- mapM maskEntry env ;;
       ret (SecretList secrets None))
    (fun error => ret (Failure error)).

Definition handleInvokeEdgeFunction (args : Unknown InvokeArgs.t) : M Envelope :=
  a <- destructure (lit "name") args ;;
  let name := InvokeArgs.name a in
  let payload := InvokeArgs.payload a in
  let headers := InvokeArgs.headers a in
  connection <- (fun w => (getConnection w, w)) ;;
  tryCatch
    (supabase <- lift (getSupabaseClient connection) ;;
     let invokeOptions := {| body := payload; Sys.headers := headers |} in
     emit (EvInvoke name) ;;
     response <- lift (functions_invoke supabase name invokeOptions) ;;
     match error response with
     | Some message => ret (Failure (Err message))
     | None =>
         ret (Invoked (data response)
                (lit "Edge Function '" ++ name ++ lit "' invoked successfully"))
     end)
    (fun error => ret (Failure error)).

(** ** The dispatcher

    The handler of [CallToolRequestSchema] in the server's [setupHandlers]:
    a [switch] on the tool name inside a [try] block whose [catch] returns
    the error object.  The cases of the other tool families call handlers
    that are outside these sources and are left out; a name that is no tool
    reaches the [default] case. *)


Section Dispatcher.

Variable JSON_stringify_imports : list (jsstring * jsstring) -> jsstring.


End Dispatcher.

(** ** Vocabulary of the properties *)

(** The functions directory is configured and present, at [fd]: the two
    checks of [getFunctionsDir] pass. *)
Definition configured (w : World) (fd : Path) : Prop :=
  exists dir,
    SUPABASE_FUNCTIONS_DIR w = Some dir /\ dir <> []
    /\ fd = path_resolve (cwd w) dir
    /\ lookup (root w) fd <> None.

(** The path of the secrets file below the functions directory. *)
Definition envFile (fd : Path) : Path := path_join fd (lit ".env").

(** The secrets file is a file, and holds [text]. *)
Definition secretsFileIs (w : World) (fd : Path) (text : jsstring) : Prop :=
  configured w fd
  /\ exists t, lookup (root w) (envFile fd) = Some (File text t).

(** The mapping a secret handler starts from: the parsed file, or the empty
    mapping when there is no file. *)
Definition loadedEnv (w : World) (fd : Path) : JsMap :=
  match lookup (root w) (envFile fd) with
  | Some (File text _) => parseEnvFile text
  | _ => []
  end.

(** The world in which [handleListSecrets] maps over the entries: the
    store is as before, three calls are in the journal. *)
Definition listingWorld (w : World) (fd : Path) : World :=
  record (EvReadFile (envFile fd))
    (record (EvExists (envFile fd)) (record (EvExists fd) w)).

(** The source file of the function directory [name]. *)
Definition indexPath (fd : Path) (name : jsstring) : Path :=
  path_join (path_join fd name) (lit "index.ts").

(** The import map of the function directory [name]. *)
Definition importMapPath (fd : Path) (name : jsstring) : Path :=
  path_join (path_join fd name) (lit "import_map.json").


(** What a handler leaves: the object it returns, or the exception that
    escapes it. *)
Definition outcome {A} (r : Result A * World) : Result A := fst r.
Definition after {A} (r : Result A * World) : World := snd r.

(** The masked value of the listing, as a function of the stored value:
    the first three code units, then one bullet for each further one, at
    most twenty. *)
Definition masked (value : jsstring) : jsstring :=
  firstn 3 value ++ repeat bullet (Z.to_nat (Z.min (strlen value - 3) 20)).

Definition maskedInfo (kv : jsstring * jsstring) : SecretInfo.t :=
  {| SecretInfo.key := fst kv;
     SecretInfo.value := masked (snd kv);
     SecretInfo.length := strlen (snd kv) |}.

(** The entry a single line of the file contributes, if any. *)
Definition lineEntry (line : jsstring) : option (jsstring * jsstring) :=
  match parseLine [] line with
  | kv :: _ => Some kv
  | [] => None
  end.

(** The entries of a file, line by line, in file order. *)
Definition entriesOf (content : jsstring) : list (jsstring * jsstring) :=
  flat_map (fun line => match lineEntry line with Some kv => [kv] | None => [] end)
           (split LF content).

(** One pair put into the mapping, as [env.set] does for a line. *)
Definition upsert (env : JsMap) (kv : jsstring * jsstring) : JsMap :=
  map_set (fst kv) (snd kv) env.


(** The keys of [ks] in the order of their first occurrences. *)
Fixpoint firstOccurrences (ks : list jsstring) : list jsstring :=
  match ks with
  | [] => []
  | k :: ks' => k :: filter (fun k' => negb (str_eqb k k')) (firstOccurrences ks')
  end.

(** The quoting rule in the words of the format: a value has to be quoted
    when one of its code units is white space, a hash, a double or single
    quote, a backslash or a dollar. *)
Definition containsSpecial (value : jsstring) : Prop :=
  exists c, In c value
    /\ (isWhiteSpace c = true \/ c = hash \/ c = dquote \/ c = squote
        \/ c = backslash \/ c = dollar).

(** The escaping rule in the words of the format, one code unit at a time:
    a backslash becomes two, a double quote gets a backslash in front. *)
Definition escapedUnit (c : code_unit) : jsstring :=
  if (c =? backslash)%N then [backslash; backslash]
  else if (c =? dquote)%N then [backslash; dquote]
  else [c].

Definition quotedLine (key value : jsstring) : jsstring :=
  key ++ [equals] ++ [dquote] ++ flat_map escapedUnit value ++ [dquote].

Definition plainLine (key value : jsstring) : jsstring :=
  key ++ [equals] ++ value.

(** The line [serializeEnvFile] writes for an entry. *)
Definition entryLine (kv : jsstring * jsstring) : jsstring :=
  if needsQuoting (snd kv) then quotedLine (fst kv) (snd kv)
  else plainLine (fst kv) (snd kv).

(** A value the escaping leaves as it is and that fits on one line. *)
Definition plainValue (value : jsstring) : Prop :=
  ~ In backslash value /\ ~ In dquote value /\ ~ In LF value.

(** A string [trimStart] has nothing to remove from. *)
Definition startsClean (s : jsstring) : Prop :=
  match s with
  | [] => True
  | c :: _ => isWhiteSpace c = false
  end.

(** *** Worlds used in the examples *)

Definition functionsPath : Path := [lit "srv"; lit "functions"].

(** A functions directory [/srv/functions] with the given entries. *)
Definition demoWorld (entries : list (jsstring * Node)) (restarts : bool) : World :=
  {| SUPABASE_FUNCTIONS_DIR := Some (lit "/srv/functions");
     cwd := [];
     root := Dir 0 [(lit "srv", Dir 0 [(lit "functions", Dir 0 entries)])];
     now := 7;
     dockerRestarts := restarts;
     getConnection := Throw (Err (lit "Connection not initialized"));
     journal := [] |}.

Definition secretsWorld (text : jsstring) (restarts : bool) : World :=
  demoWorld [(lit ".env", File text 1)] restarts.

(** A store with one deployed function, [hello], that has an import map,
    and a second deploy of it without one. *)
Definition helloWorld : World :=
  demoWorld
    [(lit "hello",
      Dir 2 [(lit "index.ts", File (lit "old source") 3);
             (lit "import_map.json", File (lit "{}") 3)])]
    true.


(** A backend whose function invocation answers with its payload. *)
Definition echoConnection : Connection :=
  {| getSupabaseClient :=
       Ok {| functions_invoke := fun _ options =>
               Ok {| data := match body options with Some b => b | None => [] end;
                     error := None |} |} |}.

Definition connectedWorld : World :=
  {| SUPABASE_FUNCTIONS_DIR := Some (lit "/srv/functions");
     cwd := [];
     root := Dir 0 [(lit "srv", Dir 0 [(lit "functions", Dir 0 [])])];
     now := 7;
     dockerRestarts := true;
     getConnection := Ok echoConnection;
     journal := [] |}.

(** ** Vocabulary of the further properties *)

(** Everything of the world but the tree of files and the journal. *)
Definition sameSettings (w w' : World) : Prop :=
  SUPABASE_FUNCTIONS_DIR w' = SUPABASE_FUNCTIONS_DIR w
  /\ cwd w' = cwd w
  /\ now w' = now w
  /\ dockerRestarts w' = dockerRestarts w
  /\ getConnection w' = getConnection w.

(** A computation that leaves the settings as they are. *)
Definition keepsSettings {A} (m : M A) : Prop :=
  forall w, sameSettings w (snd (m w)).

(** A computation that leaves the tree of files as it is. *)
Definition keepsFiles {A} (m : M A) : Prop :=
  forall w, root (snd (m w)) = root w.

(** The two messages of [getFunctionsDir]. *)
Definition configurationError (message : jsstring) : Prop :=
  message = lit "SUPABASE_FUNCTIONS_DIR not set in environment"
  \/ exists dir, message = lit "Functions directory not found: " ++ dir.

(** [q] is [p] or lies below it. *)
Definition isBelow (p q : Path) : Prop := exists rest, q = p ++ rest.

(** The entry of the listing for the function directory [name], read off
    the tree [r]. *)
Definition listedInfo (r : Node) (fd : Path) (name : jsstring) : FunctionInfo.t :=
  {| FunctionInfo.name := name;
     FunctionInfo.hasIndex := true;
     FunctionInfo.hasImportMap :=
       match lookup r (importMapPath fd name) with Some _ => true | None => false end;
     FunctionInfo.updatedAt :=
       match lookup r (indexPath fd name) with Some nd => node_mtime nd | None => 0%N end |}.

(** The names of the subdirectories of a directory, in directory order. *)
Definition subdirectories (es : list (jsstring * Node)) : list jsstring :=
  map fst (filter (fun e => node_isDir (snd e)) es).

(** An entry as it comes back from the file: the value escaped once. *)
Definition escapedEntry (kv : jsstring * jsstring) : jsstring * jsstring :=
  (fst kv, flat_map escapedUnit (snd kv)).

(** The mapping without the entries of [key]. *)
Definition withoutKey (key : jsstring) (m : JsMap) : JsMap :=
  filter (fun kv => negb (str_eqb (fst kv) key)) m.

(** The lines [parseEnvFile] passes over: blank lines, comments and lines
    without an equals sign. *)
Definition ignoredLine (line : jsstring) : bool :=
  isEmpty (trim line) || startsWith (trim line) [hash]
  || (indexOf equals (trim line) =? -1)%Z.

(** A mapping the codec gives back as it is: valid keys, each once, and
    values without backslash, double quote and line feed. *)
Definition plainMapping (m : JsMap) : Prop :=
  NoDup (map fst m)
  /\ forall k v, In (k, v) m -> validKey k = true /\ plainValue v.




(** A store with two functions and a secrets file. *)
Definition twoFunctionsWorld : World :=
  demoWorld
    [(lit ".env", File (lit "A=1") 1);
     (lit "hello", Dir 2 [(lit "index.ts", File (lit "h") 3)]);
     (lit "bye", Dir 2 [(lit "index.ts", File (lit "b") 4);
                        (lit "import_map.json", File (lit "{}") 4)])]
    true.


(** The message and the note of [handleDeleteSecret]. *)
Definition deletedMessage (key : jsstring) : jsstring :=
  lit "Secret '" ++ key ++ lit "' deleted successfully".

Definition deletedNote (restarted : bool) : jsstring :=
  if restarted
  then lit "Edge Runtime restarted " ++ [emdash] ++ lit " secret removed"
  else lit "Secret removed but container restart failed. Run: docker restart supabase-edge-functions".

(** U+000D CARRIAGE RETURN, which precedes the line feed in files written
    on Windows. *)
Definition CR : code_unit := 13%N.


(** The object [handleInvokeEdgeFunction] makes of what the backend
    answers. *)
Definition invokedEnvelope (name : jsstring) (answer : Result InvokeResponse)
  : Envelope :=
  match answer with
  | Throw e => Failure e
  | Ok response =>
      match error response with
      | Some message => Failure (Err message)
      | None =>
          Invoked (data response)
            (lit "Edge Function '" ++ name ++ lit "' invoked successfully")
      end
  end.


(** * Properties *)

Unset Implicit Arguments.

(** ** The handlers on small stores *)

Example parse_demo :
  parseEnvFile (lit "# secrets" ++ [LF] ++ lit "A=1" ++ [LF] ++ lit " B = 'x y' " ++ [LF]
                ++ lit "A=2" ++ [LF] ++ lit "novalue" ++ [LF] ++ lit "C=")
  = [(lit "A", lit "2"); (lit "B", lit "x y"); (lit "C", [])].
Proof. vm_compute. reflexivity. Qed.

Example serialize_demo :
  serializeEnvFile [(lit "KEY", lit "hello world"); (lit "K2", lit "abc123")]
  = lit "KEY=" ++ [dquote] ++ lit "hello world" ++ [dquote; LF] ++ lit "K2=abc123" ++ [LF].
Proof. vm_compute. reflexivity. Qed.

Example serialize_empty : serializeEnvFile [] = [LF].
Proof. reflexivity. Qed.

Example list_functions_demo :
  outcome (handleListEdgeFunctions helloWorld)
  = Ok (FunctionList
          [ {| FunctionInfo.name := lit "hello";
               FunctionInfo.hasIndex := true;
               FunctionInfo.hasImportMap := true;
               FunctionInfo.updatedAt := 3 |} ]).
Proof. vm_compute. reflexivity. Qed.

Example delete_then_list_demo :
  outcome (handleListEdgeFunctions
             (after (handleDeleteEdgeFunction
                       (JsObject {| DeleteArgs.name := lit "hello" |}) helloWorld)))
  = Ok (FunctionList []).
Proof. vm_compute. reflexivity. Qed.

Example list_secrets_without_file :
  outcome (handleListSecrets (demoWorld [] true))
  = Ok (SecretList [] (Some (lit "No secrets configured"))).
Proof. vm_compute. reflexivity. Qed.

Example unconfigured_store :
  outcome (handleListSecrets
             {| SUPABASE_FUNCTIONS_DIR := None; cwd := []; root := Dir 0 [];
                now := 0; dockerRestarts := true;
                getConnection := Ok echoConnection; journal := [] |})
  = Ok (Failure (Err (lit "SUPABASE_FUNCTIONS_DIR not set in environment"))).
Proof. vm_compute. reflexivity. Qed.

(** ** Strings and maps *)

Lemma str_eqb_eq (a b : jsstring) : str_eqb a b = true <-> a = b.
Proof.
  revert b; induction a as [|x a IH]; intros [|y b]; simpl; split;
    try congruence; try reflexivity.
  - intros H. apply andb_true_iff in H as [Hx Hab].
    apply N.eqb_eq in Hx. apply IH in Hab. congruence.
  - intros H. injection H as -> ->. rewrite N.eqb_refl. simpl. now apply IH.
Qed.

Lemma str_eqb_refl (a : jsstring) : str_eqb a a = true.
Proof. now apply str_eqb_eq. Qed.

Lemma str_eqb_neq (a b : jsstring) : str_eqb a b = false <-> a <> b.
Proof.
  split.
  - intros H E. apply str_eqb_eq in E. congruence.
  - intros H. destruct (str_eqb a b) eqn:E; [|reflexivity].
    apply str_eqb_eq in E. contradiction.
Qed.

Lemma str_eqb_sym (a b : jsstring) : str_eqb a b = str_eqb b a.
Proof.
  destruct (str_eqb a b) eqn:E.
  - apply str_eqb_eq in E. subst. now rewrite str_eqb_refl.
  - symmetry. apply str_eqb_neq. apply str_eqb_neq in E. congruence.
Qed.

(** ** Running the handlers *)

Lemma root_record (ev : Event) (w : World) : root (record ev w) = root w.
Proof. reflexivity. Qed.

Lemma path_join_segment (p : Path) (seg : jsstring) :
  In seg [lit ".env"; lit "index.ts"; lit "import_map.json"] ->
  path_join p seg = p ++ [seg].
Proof.
  intros [<-|[<-|[<-|[]]]]; reflexivity.
Qed.

Lemma getFunctionsDir_configured (w : World) (fd : Path) :
  configured w fd ->
  getFunctionsDir w = (Ok fd, record (EvExists fd) w).
Proof.
  intros (dir & Henv & Hne & -> & Hex).
  unfold getFunctionsDir, bind, gets. rewrite Henv.
  destruct dir as [|c dir]; [congruence|]. cbn [isEmpty].
  unfold existsSync, bind, emit, gets. rewrite root_record.
  destruct (lookup (root w) (path_resolve (cwd w) (c :: dir))); [reflexivity|congruence].
Qed.

Lemma getEnvPath_configured (w : World) (fd : Path) :
  configured w fd ->
  getEnvPath w = (Ok (envFile fd), record (EvExists fd) w).
Proof.
  intros H. unfold getEnvPath, bind. now rewrite (getFunctionsDir_configured _ _ H).
Qed.

Lemma slice_0_3 (v : jsstring) : slice v 0 3 = firstn 3 v.
Proof.
  unfold slice, clampIndex, strlen. cbn [Z.ltb Z.compare].
  rewrite (Z.min_l 0) by lia. cbn [Z.to_nat skipn]. rewrite Z.sub_0_r.
  destruct (Z.le_gt_cases 3 (Z.of_nat (List.length v))) as [H|H].
  - rewrite Z.min_l by lia. reflexivity.
  - rewrite Z.min_r by lia. rewrite Nat2Z.id.
    rewrite firstn_all. symmetry. apply firstn_all2. lia.
Qed.

Lemma concat_repeat_unit (c : code_unit) (n : nat) :
  List.concat (repeat [c] n) = repeat c n.
Proof. induction n; simpl; congruence. Qed.

Lemma maskEntry_long (kv : jsstring * jsstring) (w : World) :
  (3 <= strlen (snd kv))%Z ->
  maskEntry kv w = (Ok (maskedInfo kv), w).
Proof.
  destruct kv as [k v]. cbn [snd]. intros H.
  unfold maskEntry, str_repeat, bind.
  destruct (Z.ltb_spec (Z.min (strlen v - 3) 20) 0) as [Hlt|_]; [lia|].
  unfold ret, maskedInfo, masked. cbn [fst snd].
  now rewrite slice_0_3, concat_repeat_unit.
Qed.

Lemma maskEntry_short (kv : jsstring * jsstring) (w : World) :
  (strlen (snd kv) < 3)%Z ->
  exists msg, maskEntry kv w = (Throw (RangeError msg), w).
Proof.
  destruct kv as [k v]. cbn [snd]. intros H.
  unfold maskEntry, str_repeat, bind.
  destruct (Z.ltb_spec (Z.min (strlen v - 3) 20) 0) as [_|Hge]; [|lia].
  eexists. reflexivity.
Qed.

Lemma mapM_maskEntry_long (env : JsMap) (w : World) :
  (forall kv, In kv env -> (3 <= strlen (snd kv))%Z) ->
  mapM maskEntry env w = (Ok (map maskedInfo env), w).
Proof.
  induction env as [|kv env IH]; intros H; [reflexivity|].
  cbn [mapM map]. unfold bind.
  rewrite maskEntry_long by (apply H; now left).
  rewrite IH by (intros; apply H; now right). reflexivity.
Qed.

Lemma mapM_maskEntry_short (env : JsMap) (w : World) :
  (exists kv, In kv env /\ (strlen (snd kv) < 3)%Z) ->
  exists msg, mapM maskEntry env w = (Throw (RangeError msg), w).
Proof.
  induction env as [|kv env IH]; intros (kv' & Hin & Hlen); [destruct Hin|].
  cbn [mapM]. unfold bind.
  destruct (Z.lt_ge_cases (strlen (snd kv)) 3) as [Hs|Hl].
  - destruct (maskEntry_short kv w Hs) as [msg ->]. now exists msg.
  - rewrite maskEntry_long by lia.
    destruct Hin as [->|Hin]; [lia|].
    destruct IH as [msg ->]; [now exists kv'|]. now exists msg.
Qed.

Lemma handleListSecrets_run (w : World) (fd : Path) (text : jsstring) :
  secretsFileIs w fd text ->
  handleListSecrets w =
  match mapM maskEntry (parseEnvFile text) (listingWorld w fd) with
  | (Ok secrets, w') => (Ok (SecretList secrets None), w')
  | (Throw e, w') => (Ok (Failure e), w')
  end.
Proof.
  intros (Hc & t & Hfile).
  unfold handleListSecrets, tryCatch, bind.
  rewrite (getEnvPath_configured _ _ Hc). cbv beta iota.
  unfold existsSync, readFileSync, bind, emit, gets, ret. cbv beta iota.
  rewrite !root_record, Hfile. cbv beta iota. cbn [negb].
  rewrite !root_record, Hfile. cbv beta iota.
  fold (listingWorld w fd).
  destruct (mapM maskEntry (parseEnvFile text) (listingWorld w fd)) as [[s|e] w'];
    reflexivity.
Qed.

(** ** Secret listing *)

Lemma masked_prefix (v : jsstring) :
  (3 <= strlen v)%Z -> firstn 3 (masked v) = firstn 3 v.
Proof.
  intros H. unfold masked, strlen in *.
  rewrite firstn_app, firstn_firstn, length_firstn.
  replace (3 - Nat.min 3 (List.length v))%nat with 0%nat by lia.
  cbn [firstn Nat.min]. now rewrite app_nil_r.
Qed.

Lemma masked_suffix (v : jsstring) :
  (3 <= strlen v)%Z ->
  skipn 3 (masked v) = repeat bullet (Z.to_nat (Z.min (strlen v - 3) 20)).
Proof.
  intros H. unfold masked, strlen in *.
  rewrite skipn_app, length_firstn.
  replace (3 - Nat.min 3 (List.length v))%nat with 0%nat by lia.
  rewrite (skipn_all2 (n := 3)) by (rewrite length_firstn; lia).
  reflexivity.
Qed.

Lemma masked_hides (v : jsstring) :
  (3 <= strlen v)%Z ->
  (exists c, In c (skipn 3 v) /\ c <> bullet) ->
  masked v <> v.
Proof.
  intros H (c & Hin & Hc) E.
  rewrite <- E, masked_suffix in Hin by assumption.
  apply repeat_spec in Hin. contradiction.
Qed.

(** C10.  When the secrets file has an entry whose value is shorter than
    three code units, [handleListSecrets] returns the error object, with the
    [RangeError] that [repeat] throws on the negative count; when every
    value has at least three code units it returns the listing. *)
Theorem listing_fails_on_short_value (w : World) (fd : Path) (text : jsstring) :
  secretsFileIs w fd text ->
  ((exists k v, In (k, v) (parseEnvFile text) /\ (strlen v < 3)%Z) ->
   exists msg, outcome (handleListSecrets w) = Ok (Failure (RangeError msg)))
  /\ ((forall k v, In (k, v) (parseEnvFile text) -> (3 <= strlen v)%Z) ->
      exists secrets, outcome (handleListSecrets w) = Ok (SecretList secrets None)).
Proof.
  intros Hs. rewrite (handleListSecrets_run _ _ _ Hs). split.
  - intros (k & v & Hin & Hlen).
    destruct (mapM_maskEntry_short (parseEnvFile text) (listingWorld w fd))
      as [msg ->]; [now exists (k, v)|].
    now exists msg.
  - intros Hall. rewrite mapM_maskEntry_long.
    + now eexists.
    + intros [k v] Hin. apply (Hall k v Hin).
Qed.

Lemma demo_configured (entries : list (jsstring * Node)) (restarts : bool) :
  configured (demoWorld entries restarts) functionsPath.
Proof.
  exists (lit "/srv/functions"). repeat split; try reflexivity; discriminate.
Qed.

Lemma secretsWorld_file (text : jsstring) (restarts : bool) :
  secretsFileIs (secretsWorld text restarts) functionsPath text.
Proof.
  split; [apply demo_configured|]. exists 1%N. reflexivity.
Qed.

Lemma listing_fails_on_short_value_witness :
  exists msg,
    outcome (handleListSecrets (secretsWorld (lit "K=ab") true))
    = Ok (Failure (RangeError msg)).
Proof.
  apply (proj1 (listing_fails_on_short_value _ _ _
                  (secretsWorld_file (lit "K=ab") true))).
  exists (lit "K"), (lit "ab"). split; [now left|reflexivity].
Defined.

(** C4, as amended.  When every value of the secrets file has at least three
    code units, [handleListSecrets] lists each entry with its key, the
    masked value and the length of the value.  The masked value starts with
    the first three code units of the value and goes on with bullets only,
    one for each further code unit and at most twenty, so it differs from
    the value as soon as one code unit after the third is not a bullet.
    For the value mysecretvalue123 it is mys and thirteen bullets, and the
    length is 16. *)
Theorem listing_masks_values (w : World) (fd : Path) (text : jsstring) :
  secretsFileIs w fd text ->
  (forall k v, In (k, v) (parseEnvFile text) -> (3 <= strlen v)%Z) ->
  outcome (handleListSecrets w)
  = Ok (SecretList (map maskedInfo (parseEnvFile text)) None)
  /\ (forall k v, In (k, v) (parseEnvFile text) ->
        SecretInfo.key (maskedInfo (k, v)) = k
        /\ SecretInfo.length (maskedInfo (k, v)) = strlen v
        /\ firstn 3 (SecretInfo.value (maskedInfo (k, v))) = firstn 3 v
        /\ skipn 3 (SecretInfo.value (maskedInfo (k, v)))
           = repeat bullet (Z.to_nat (Z.min (strlen v - 3) 20))
        /\ ((exists c, In c (skipn 3 v) /\ c <> bullet) ->
            SecretInfo.value (maskedInfo (k, v)) <> v))
  /\ maskedInfo (lit "K", lit "mysecretvalue123")
     = {| SecretInfo.key := lit "K";
          SecretInfo.value := lit "mys" ++ repeat bullet 13;
          SecretInfo.length := 16 |}.
Proof.
  intros Hs Hall. split; [|split].
  - rewrite (handleListSecrets_run _ _ _ Hs), mapM_maskEntry_long; [reflexivity|].
    intros [k v] Hin. apply (Hall k v Hin).
  - intros k v Hin. pose proof (Hall k v Hin) as Hlen. cbn [maskedInfo fst snd SecretInfo.key SecretInfo.length SecretInfo.value].
    repeat split.
    + now apply masked_prefix.
    + now apply masked_suffix.
    + now apply masked_hides.
  - reflexivity.
Qed.

Lemma listing_masks_values_witness :
  outcome (handleListSecrets (secretsWorld (lit "K=mysecretvalue123") true))
  = Ok (SecretList [ {| SecretInfo.key := lit "K";
                        SecretInfo.value := lit "mys" ++ repeat bullet 13;
                        SecretInfo.length := 16 |} ] None).
Proof.
  apply (proj1 (listing_masks_values _ _ _
                  (secretsWorld_file (lit "K=mysecretvalue123") true)
                  ltac:(intros k v [E|[]]; injection E as <- <-; vm_compute; discriminate))).
Defined.

(** C4, as stated, fails: the length listed for mysecretvalue123 is 16, not
    17, and a value of exactly three code units is listed unmasked. *)
Lemma listing_masks_values_counterexample :
  ~ (exists s,
       outcome (handleListSecrets (secretsWorld (lit "K=mysecretvalue123") true))
       = Ok (SecretList [s] None)
       /\ SecretInfo.length s = 17%Z)
  /\ outcome (handleListSecrets (secretsWorld (lit "K=abc") true))
     = Ok (SecretList [ {| SecretInfo.key := lit "K";
                           SecretInfo.value := lit "abc";
                           SecretInfo.length := 3 |} ] None).
Proof.
  split.
  - intros (s & Hout & Hlen). vm_compute in Hout.
    injection Hout as <-. vm_compute in Hlen. discriminate.
  - vm_compute. reflexivity.
Qed.

(** ** Secret keys *)

(** C6.  For a key that does not match the key pattern, [handleSetSecret]
    returns the invalid-key error object and leaves the world as it was:
    the store is unchanged and the journal has no new call, neither to the
    file system nor to the runtime. *)
Theorem invalid_key_rejected_before_store (w : World) (key value : jsstring) :
  validKey key = false ->
  handleSetSecret
    (JsObject {| SetSecretArgs.key := key; SetSecretArgs.value := value |}) w
  = (Ok (Failure (Err (lit "Invalid key name. Use letters, numbers, and underscores only."))),
     w).
Proof.
  intros H. unfold handleSetSecret, destructure, bind, ret.
  cbn [SetSecretArgs.key]. now rewrite H.
Qed.

Lemma invalid_key_rejected_before_store_witness :
  handleSetSecret
    (JsObject {| SetSecretArgs.key := lit "bad-key!"; SetSecretArgs.value := lit "v" |})
    (secretsWorld (lit "A=1") true)
  = (Ok (Failure (Err (lit "Invalid key name. Use letters, numbers, and underscores only."))),
     secretsWorld (lit "A=1") true).
Proof.
  apply invalid_key_rejected_before_store. reflexivity.
Defined.

(** ** The tree of files *)

Lemma assoc_set_same (k : jsstring) (n : Node) (es : list (jsstring * Node)) :
  assoc k (assoc_set k n es) = Some n.
Proof.
  induction es as [|[k' n'] es IH]; cbn [assoc_set assoc].
  - now rewrite str_eqb_refl.
  - destruct (str_eqb k' k) eqn:E; cbn [assoc]; now rewrite E.
Qed.

Lemma assoc_set_other (k k' : jsstring) (n : Node) (es : list (jsstring * Node)) :
  k <> k' -> assoc k' (assoc_set k n es) = assoc k' es.
Proof.
  intros Hne. induction es as [|[k0 n0] es IH]; cbn [assoc_set assoc].
  - apply str_eqb_neq in Hne. now rewrite Hne.
  - destruct (str_eqb k0 k) eqn:E; cbn [assoc].
    + apply str_eqb_eq in E. subst k0.
      apply str_eqb_neq in Hne. now rewrite Hne.
    + now rewrite IH.
Qed.


Lemma assoc_app_new (k k' : jsstring) (n : Node) (es : list (jsstring * Node)) :
  assoc k es = None ->
  assoc k' (es ++ [(k, n)]) = if str_eqb k k' then Some n else assoc k' es.
Proof.
  induction es as [|[k0 n0] es IH]; cbn [assoc app]; [reflexivity|].
  destruct (str_eqb k0 k) eqn:E0; [discriminate|]. intros H.
  destruct (str_eqb k0 k') eqn:E1.
  - destruct (str_eqb k k') eqn:E2; [|reflexivity].
    apply str_eqb_eq in E1, E2. subst. now rewrite str_eqb_refl in E0.
  - now apply IH.
Qed.

Lemma lookup_app (n : Node) (p q : Path) :
  lookup n (p ++ q) =
  match lookup n p with Some c => lookup c q | None => None end.
Proof.
  revert n. induction p as [|s p IH]; intros n; cbn [app lookup]; [reflexivity|].
  destruct n as [|m es]; [reflexivity|].
  destruct (assoc s es); [apply IH|reflexivity].
Qed.

Lemma writeAt_lookup (n r : Node) (p : Path) (text : jsstring) (t : N) :
  writeAt n p text t = inr r -> lookup r p = Some (File text t).
Proof.
  revert n r. induction p as [|s p IH]; intros n r; cbn [writeAt lookup].
  - destruct n; [|discriminate]. now intros [= <-].
  - destruct n as [|m es]; [discriminate|].
    destruct (assoc s es) as [c|] eqn:Ea.
    + destruct (writeAt c p text t) as [e|c'] eqn:Ew; [discriminate|].
      intros [= <-]. rewrite assoc_set_same. now apply (IH c).
    + destruct p; [|discriminate]. intros [= <-].
      rewrite (assoc_app_new _ _ _ _ Ea), str_eqb_refl. reflexivity.
Qed.


Lemma writeAt_over_file (n : Node) (p : Path) (old text : jsstring) (t0 t : N) :
  lookup n p = Some (File old t0) ->
  exists r, writeAt n p text t = inr r.
Proof.
  revert n. induction p as [|s p IH]; intros n; cbn [writeAt lookup].
  - intros [= ->]. now eexists.
  - destruct n as [|m es]; [discriminate|].
    destruct (assoc s es) as [c|] eqn:Ea; [|discriminate].
    intros H. destruct (IH c H) as [c' ->]. now eexists.
Qed.





(** ** Secret mutation and the runtime restart *)

Lemma restartEdgeRuntime_run (w : World) :
  restartEdgeRuntime w
  = (Ok (dockerRestarts w),
     record (EvExec (lit "sudo docker restart supabase-edge-functions")) w).
Proof.
  unfold restartEdgeRuntime, tryCatch, execSync, bind, emit, gets, ret, throw.
  cbn [dockerRestarts record]. now destruct (dockerRestarts w).
Qed.





(** ** Function listing *)

Lemma listEntry_run (fd : Path) (e : Dirent) (w : World) :
  exists w',
    root w' = root w
    /\ listEntry fd e w =
       match lookup (root w) (indexPath fd (d_name e)) with
       | Some nd =>
           (Ok {| FunctionInfo.name := d_name e;
                  FunctionInfo.hasIndex := true;
                  FunctionInfo.hasImportMap :=
                    match lookup (root w) (importMapPath fd (d_name e))
                    with Some _ => true | None => false end;
                  FunctionInfo.updatedAt := node_mtime nd |}, w')
       | None =>
           (Throw (SystemError ENOENT sys_stat (indexPath fd (d_name e))), w')
       end.
Proof.
  unfold listEntry, indexPath, importMapPath, existsSync, statSync, bind, emit, gets, ret, throw.
  cbv beta iota. rewrite !root_record.
  destruct (lookup (root w) (path_join (path_join fd (d_name e)) (lit "index.ts")));
    eexists; (split; [|reflexivity]); reflexivity.
Qed.

Lemma mapM_listEntry_broken (fd : Path) (l : list Dirent) (w : World) :
  (exists e, In e l /\ lookup (root w) (indexPath fd (d_name e)) = None) ->
  exists p w',
    mapM (listEntry fd) l w = (Throw (SystemError ENOENT sys_stat p), w').
Proof.
  revert w. induction l as [|e l IH]; intros w (e' & Hin & Hnone); [destruct Hin|].
  cbn [mapM]. unfold bind.
  destruct (listEntry_run fd e w) as (w1 & Hroot & ->).
  destruct (lookup (root w) (indexPath fd (d_name e))) as [nd|] eqn:Hidx.
  - destruct Hin as [->|Hin]; [congruence|].
    destruct (IH w1) as (p & w' & ->).
    + exists e'. rewrite Hroot. now split.
    + now exists p, w'.
  - now eexists _, _.
Qed.

(** C2.  The code does not do what the spec asks for a function directory
    without [index.ts]: [statSync] throws inside the callback of [map], the
    exception leaves the whole [try] block, and [handleListEdgeFunctions]
    returns the error object instead of a listing. *)
Theorem listing_aborts_on_missing_index
  (w : World) (fd : Path) (m : N) (es : list (jsstring * Node)) :
  configured w fd ->
  lookup (root w) fd = Some (Dir m es) ->
  (exists name sub,
     In (name, sub) es /\ node_isDir sub = true
     /\ lookup (root w) (indexPath fd name) = None) ->
  exists p,
    outcome (handleListEdgeFunctions w) = Ok (Failure (SystemError ENOENT sys_stat p)).
Proof.
  intros Hc Hdir (name & sub & Hin & Hsub & Hnone).
  unfold handleListEdgeFunctions, tryCatch, bind.
  rewrite (getFunctionsDir_configured _ _ Hc). cbv beta iota.
  unfold readdirSync, bind, emit, gets, ret. cbv beta iota.
  rewrite !root_record, Hdir. cbv beta iota.
  match goal with
  | |- context [mapM (listEntry fd) ?l ?w0] =>
      destruct (mapM_listEntry_broken fd l w0) as (p & w' & ->)
  end.
  - exists {| d_name := name; isDirectory := node_isDir sub |}. split.
    + apply filter_In. split; [|exact Hsub].
      apply in_map_iff. now exists (name, sub).
    + exact Hnone.
  - now exists p.
Qed.

Lemma listing_aborts_on_missing_index_witness :
  exists p,
    outcome (handleListEdgeFunctions
               (demoWorld [(lit "ok", Dir 2 [(lit "index.ts", File (lit "x") 3)]);
                           (lit "broken", Dir 2 [])] true))
    = Ok (Failure (SystemError ENOENT sys_stat p)).
Proof.
  apply (listing_aborts_on_missing_index _ functionsPath 0%N _ (demo_configured _ _) eq_refl).
  exists (lit "broken"), (Dir 2 []). repeat split.
  right. now left.
Defined.

(** ** The boundary of the handlers *)




(** [getConnection()] is called before the [try] block: what it throws
    escapes the handler. *)
Lemma invoke_handler_lets_connection_failure_escape
  (w : World) (a : InvokeArgs.t) (e : Error) :
  getConnection w = Throw e ->
  handleInvokeEdgeFunction (JsObject a) w = (Throw e, w).
Proof.
  intros H. unfold handleInvokeEdgeFunction, destructure, bind at 1, ret at 1.
  unfold bind at 1. now rewrite H.
Qed.





(** ** Deploying a function *)

Lemma indexPath_app (fd : Path) (name : jsstring) :
  indexPath fd name = path_join fd name ++ [lit "index.ts"].
Proof. reflexivity. Qed.

Lemma importMapPath_app (fd : Path) (name : jsstring) :
  importMapPath fd name = path_join fd name ++ [lit "import_map.json"].
Proof. reflexivity. Qed.


(** The steps of [handleCreateEdgeFunction] on the tree of files, and the
    tree each of their failures leaves. *)
Lemma handleCreateEdgeFunction_run
  (stringify : list (jsstring * jsstring) -> jsstring)
  (w : World) (fd : Path) (a : CreateArgs.t) :
  configured w fd ->
  exists envelope w',
    handleCreateEdgeFunction stringify (JsObject a) w = (Ok envelope, w')
    /\ match mkdirp (root w) (path_join fd (CreateArgs.name a)) (now w) with
       | inl _ => success envelope = false /\ root w' = root w
       | inr r1 =>
           match writeAt r1 (indexPath fd (CreateArgs.name a))
                   (CreateArgs.source a) (now w) with
           | inl _ => success envelope = false /\ root w' = r1
           | inr r2 =>
               match CreateArgs.importMap a with
               | Some (e :: m) =>
                   match writeAt r2 (importMapPath fd (CreateArgs.name a))
                           (stringify (e :: m)) (now w) with
                   | inl _ => success envelope = false /\ root w' = r2
                   | inr r3 => success envelope = true /\ root w' = r3
                   end
               | _ => success envelope = true /\ root w' = r2
               end
           end
       end.
Proof.
  intros Hc.
  unfold handleCreateEdgeFunction, destructure, bind at 1, ret at 1.
  unfold tryCatch, bind. rewrite (getFunctionsDir_configured _ _ Hc). cbv beta iota.
  unfold mkdirSync, writeFileSync, bind, emit, ret. cbv beta iota.
  cbn [root now record with_root].
  fold (indexPath fd (CreateArgs.name a)) (importMapPath fd (CreateArgs.name a)).
  destruct (mkdirp (root w) (path_join fd (CreateArgs.name a)) (now w)) as [e1|r1].
  { eexists _, _. split; [reflexivity|]. now split. }
  cbn [root now record with_root].
  destruct (writeAt r1 (indexPath fd (CreateArgs.name a)) (CreateArgs.source a) (now w))
    as [e2|r2].
  { eexists _, _. split; [reflexivity|]. now split. }
  destruct (CreateArgs.importMap a) as [[|e m]|]; cbn [importMapSupplied].
  - eexists _, _. split; [reflexivity|]. now split.
  - cbn [root now record with_root].
    destruct (writeAt r2 (importMapPath fd (CreateArgs.name a)) (stringify (e :: m)) (now w))
      as [e3|r3]; eexists _, _; (split; [reflexivity|]); now split.
  - eexists _, _. split; [reflexivity|]. now split.
Qed.



(** ** Serialization *)

Lemma replaceAll_app (c : code_unit) (r s1 s2 : jsstring) :
  replaceAll c r (s1 ++ s2) = replaceAll c r s1 ++ replaceAll c r s2.
Proof. unfold replaceAll. apply flat_map_app. Qed.

(** The two passes of the source amount to one pass, unit by unit. *)
Lemma escapeValue_unitwise (value : jsstring) :
  escapeValue value = flat_map escapedUnit value.
Proof.
  unfold escapeValue. induction value as [|c v IH]; [reflexivity|].
  change (replaceAll backslash [backslash; backslash] (c :: v))
    with ((if (c =? backslash)%N then [backslash; backslash] else [c])
          ++ replaceAll backslash [backslash; backslash] v).
  rewrite replaceAll_app, IH. cbn [flat_map]. f_equal.
  unfold escapedUnit.
  destruct (N.eqb_spec c backslash) as [->|Hb]; [reflexivity|].
  unfold replaceAll. cbn [flat_map]. rewrite app_nil_r. reflexivity.
Qed.

Lemma needsQuoting_spec (value : jsstring) :
  needsQuoting value = true <-> containsSpecial value.
Proof.
  unfold needsQuoting, containsSpecial, isSpecial. rewrite existsb_exists.
  split; intros (c & Hin & H); exists c; (split; [exact Hin|]).
  - rewrite !orb_true_iff, !N.eqb_eq in H. tauto.
  - rewrite !orb_true_iff, !N.eqb_eq. tauto.
Qed.

Lemma length_escaped (value : jsstring) :
  (List.length value <= List.length (flat_map escapedUnit value))%nat.
Proof.
  induction value as [|c v IH]; cbn [flat_map]; [reflexivity|].
  rewrite length_app. cbn [List.length].
  assert (1 <= List.length (escapedUnit c))%nat.
  { unfold escapedUnit.
    destruct (c =? backslash)%N; [|destruct (c =? dquote)%N]; cbn; lia. }
  lia.
Qed.

Lemma quotedLine_is_not_plainLine (key value : jsstring) :
  quotedLine key value <> plainLine key value.
Proof.
  unfold quotedLine, plainLine. intros E.
  apply app_inv_head in E. apply app_inv_head in E.
  apply (f_equal (@List.length _)) in E.
  cbn [app List.length] in E. rewrite length_app in E. cbn [List.length] in E.
  pose proof (length_escaped value). lia.
Qed.

(** The line the loop of [serializeEnvFile] pushes for an entry. *)
Lemma serializeEntry_pushes (lines : list jsstring) (key value : jsstring) :
  serializeEntry lines (key, value)
  = lines ++ [if needsQuoting value then quotedLine key value
              else plainLine key value].
Proof.
  unfold serializeEntry, quotedLine, plainLine.
  rewrite escapeValue_unitwise. now destruct (needsQuoting value).
Qed.

Lemma serialize_loop (env : JsMap) (lines : list jsstring) :
  fold_left serializeEntry env lines
  = lines ++ map (fun kv => if needsQuoting (snd kv)
                            then quotedLine (fst kv) (snd kv)
                            else plainLine (fst kv) (snd kv)) env.
Proof.
  revert lines. induction env as [|[k v] env IH]; intros lines; cbn [fold_left map].
  - now rewrite app_nil_r.
  - rewrite IH, serializeEntry_pushes, <- app_assoc. reflexivity.
Qed.

(** C8.  [serializeEnvFile] writes one line for each entry, in order, joined
    by a line feed and followed by a line feed; the line of an entry is the
    quoted form, with every backslash doubled and every double quote
    escaped, exactly when the value contains white space, a hash, a quote, a
    backslash or a dollar, and the plain form exactly when it contains none
    of them. *)
Theorem serialize_quotes_exactly_when_needed (env : JsMap) :
  exists lines,
    serializeEnvFile env = join [LF] lines ++ [LF]
    /\ Forall2
         (fun kv line =>
            (containsSpecial (snd kv) <-> line = quotedLine (fst kv) (snd kv))
            /\ (~ containsSpecial (snd kv) <-> line = plainLine (fst kv) (snd kv)))
         env lines.
Proof.
  unfold serializeEnvFile. rewrite serialize_loop. cbn [app].
  eexists. split; [reflexivity|].
  induction env as [|[k v] env IH]; cbn [map]; constructor; [|exact IH].
  cbn [fst snd]. rewrite <- needsQuoting_spec.
  pose proof (quotedLine_is_not_plainLine k v) as Hne.
  destruct (needsQuoting v); split; split; intros H;
    try reflexivity; congruence.
Qed.

(** ** Duplicate keys and the order of the mapping *)

Lemma map_set_keys (k v : jsstring) (m : JsMap) :
  map fst (map_set k v m) = if map_has k m then map fst m else map fst m ++ [k].
Proof.
  induction m as [|[k' v'] m IH]; cbn [map_set map_has map fst app]; [reflexivity|].
  destruct (str_eqb k' k); cbn [orb map fst]; [reflexivity|].
  rewrite IH. now destruct (map_has k m).
Qed.


Lemma map_has_keys (k : jsstring) (m : JsMap) :
  map_has k m = existsb (fun k' => str_eqb k' k) (map fst m).
Proof.
  induction m as [|[k' v'] m IH]; cbn [map_has map fst existsb]; [reflexivity|].
  now rewrite IH.
Qed.


Lemma parseLine_lineEntry (env : JsMap) (line : jsstring) :
  parseLine env line =
  match lineEntry line with
  | Some kv => map_set (fst kv) (snd kv) env
  | None => env
  end.
Proof.
  unfold lineEntry, parseLine.
  destruct (isEmpty (trim line) || startsWith (trim line) [hash]); [reflexivity|].
  destruct (indexOf equals (trim line) =? -1)%Z; reflexivity.
Qed.

Lemma parse_loop (lines : list jsstring) (env : JsMap) :
  fold_left parseLine lines env
  = fold_left upsert
      (flat_map (fun line => match lineEntry line with Some kv => [kv] | None => [] end) lines)
      env.
Proof.
  revert env. induction lines as [|line lines IH]; intros env; [reflexivity|].
  cbn [fold_left flat_map]. rewrite fold_left_app, IH, parseLine_lineEntry.
  now destruct (lineEntry line).
Qed.

Lemma parseEnvFile_entries (content : jsstring) :
  parseEnvFile content = fold_left upsert (entriesOf content) [].
Proof. apply parse_loop. Qed.


Lemma firstOccurrences_snoc (ks : list jsstring) (k : jsstring) :
  firstOccurrences (ks ++ [k])
  = if existsb (fun k' => str_eqb k' k) ks then firstOccurrences ks
    else firstOccurrences ks ++ [k].
Proof.
  induction ks as [|a ks IH]; cbn [app firstOccurrences existsb]; [reflexivity|].
  rewrite IH. destruct (existsb (fun k' => str_eqb k' k) ks).
  - now rewrite orb_true_r.
  - rewrite orb_false_r, filter_app. cbn [filter].
    destruct (str_eqb a k); cbn [negb]; [now rewrite app_nil_r|reflexivity].
Qed.


Lemma upserts_keys (es : list (jsstring * jsstring)) :
  map fst (fold_left upsert es []) = firstOccurrences (map fst es).
Proof.
  induction es as [|e es IH] using rev_ind; [reflexivity|].
  rewrite fold_left_app, map_app. cbn [fold_left map].
  rewrite firstOccurrences_snoc. unfold upsert at 1. rewrite map_set_keys, map_has_keys, IH.
  (* the keys seen so far are the keys of the mapping *)
  assert (Hsame : existsb (fun k' => str_eqb k' (fst e)) (firstOccurrences (map fst es))
                  = existsb (fun k' => str_eqb k' (fst e)) (map fst es)).
  { generalize (map fst es) as ks. intros ks.
    induction ks as [|a ks IHks]; [reflexivity|].
    cbn [firstOccurrences existsb]. rewrite <- IHks.
    destruct (str_eqb a (fst e)) eqn:Ea; [reflexivity|]. cbn [orb].
    generalize (firstOccurrences ks) as l. intros l.
    induction l as [|b l IHl]; [reflexivity|]. cbn [filter existsb].
    destruct (str_eqb a b) eqn:Eab; cbn [negb existsb].
    - apply str_eqb_eq in Eab. subst b. now rewrite Ea.
    - now rewrite IHl. }
  now rewrite Hsame.
Qed.

Lemma loadedEnv_of_file (w : World) (fd : Path) (text : jsstring) :
  secretsFileIs w fd text -> loadedEnv w fd = parseEnvFile text.
Proof. intros (_ & t & H). unfold loadedEnv. now rewrite H. Qed.



(** ** The round trip of the codec *)

(** C1.  The code does not give the mapping back: [serializeEnvFile] doubles
    the backslash of the value and [parseEnvFile] only strips the quotes, so
    the value a\b comes back as a\\b; a double quote comes back with a
    backslash in front, and a value with a line feed is cut at the line
    feed. *)
Theorem round_trip_fails_on_escaped_values :
  parseEnvFile (serializeEnvFile [(lit "A", lit "a\b")]) = [(lit "A", lit "a\\b")]
  /\ parseEnvFile (serializeEnvFile [(lit "A", lit "a\b")]) <> [(lit "A", lit "a\b")]
  /\ parseEnvFile (serializeEnvFile [(lit "A", [ch "a"; dquote; ch "b"])])
     = [(lit "A", [ch "a"; backslash; dquote; ch "b"])]
  /\ parseEnvFile (serializeEnvFile [(lit "A", [ch "a"; LF; ch "b"])])
     = [(lit "A", [dquote; ch "a"])].
Proof.
  repeat split; try (vm_compute; reflexivity).
  vm_compute. discriminate.
Qed.

(** *** What does come back

    For values without backslash, double quote and line feed the codec is
    the identity on mappings with valid, pairwise distinct keys. *)

Lemma keyChar_facts (c : code_unit) :
  isKeyChar c = true ->
  isWhiteSpace c = false /\ c <> equals /\ c <> hash /\ c <> LF.
Proof.
  unfold isKeyChar, isKeyStart, isAlpha, isDigit, underscore, equals, hash, LF.
  rewrite !orb_true_iff, !andb_true_iff, !N.leb_le, !N.eqb_eq. intros H.
  split; [|lia].
  apply not_true_iff_false. unfold isWhiteSpace.
  rewrite !orb_true_iff, !andb_true_iff, !N.leb_le, !N.eqb_eq. lia.
Qed.

Lemma validKey_chars (k : jsstring) :
  validKey k = true -> k <> [] /\ Forall (fun c => isKeyChar c = true) k.
Proof.
  destruct k as [|c k]; [discriminate|]. cbn [validKey].
  rewrite andb_true_iff, forallb_forall. intros [Hc Hk]. split; [discriminate|].
  constructor.
  - unfold isKeyChar. now rewrite Hc.
  - now apply Forall_forall.
Qed.

Lemma trimStart_fixed (s : jsstring) :
  match s with [] => True | c :: _ => isWhiteSpace c = false end ->
  trimStart s = s.
Proof. destruct s as [|c s]; [reflexivity|]. cbn [trimStart]. now intros ->. Qed.

Lemma trim_fixed (s : jsstring) :
  trimStart s = s -> trimStart (rev s) = rev s -> trim s = s.
Proof.
  intros H1 H2. unfold trim, trimEnd. now rewrite H1, H2, rev_involutive.
Qed.

Lemma indexOf_first (x : code_unit) (k rest : jsstring) :
  Forall (fun c => c <> x) k ->
  indexOf x (k ++ x :: rest) = Z.of_nat (List.length k).
Proof.
  induction 1 as [|c k Hc Hk IH]; cbn [app indexOf List.length].
  - now rewrite N.eqb_refl.
  - apply N.eqb_neq in Hc. rewrite Hc, IH.
    destruct (Z.ltb_spec (Z.of_nat (List.length k)) 0); lia.
Qed.

Lemma slice_prefix (k rest : jsstring) :
  slice (k ++ rest) 0 (Z.of_nat (List.length k)) = k.
Proof.
  unfold slice, clampIndex, strlen. rewrite length_app.
  destruct (Z.ltb_spec 0 0) as [H|_]; [lia|].
  destruct (Z.ltb_spec (Z.of_nat (List.length k)) 0) as [H|_]; [lia|].
  replace (Z.to_nat (Z.min 0 (Z.of_nat (List.length k + List.length rest))))
    with 0%nat by lia.
  replace (Z.to_nat (Z.min (Z.of_nat (List.length k))
                       (Z.of_nat (List.length k + List.length rest))
                     - Z.min 0 (Z.of_nat (List.length k + List.length rest))))
    with (List.length k) by lia.
  cbn [skipn]. rewrite firstn_app, firstn_all, Nat.sub_diag.
  cbn [firstn]. now rewrite app_nil_r.
Qed.

Lemma sliceFrom_suffix (k rest : jsstring) (x : code_unit) :
  sliceFrom (k ++ x :: rest) (Z.of_nat (List.length k) + 1) = rest.
Proof.
  unfold sliceFrom, slice, clampIndex, strlen. rewrite length_app.
  cbn [List.length].
  destruct (Z.ltb_spec (Z.of_nat (List.length k) + 1) 0) as [H|_]; [lia|].
  destruct (Z.ltb_spec (Z.of_nat (List.length k + S (List.length rest))) 0) as [H|_]; [lia|].
  match goal with
  | |- firstn ?n (skipn ?m _) = _ =>
      replace n with (List.length rest) by lia;
      replace m with (List.length k + 1)%nat by lia
  end.
  rewrite skipn_app, skipn_all2 by lia.
  replace (List.length k + 1 - List.length k)%nat with 1%nat by lia.
  cbn [app skipn]. apply firstn_all.
Qed.

Lemma slice_unquote (q : code_unit) (v : jsstring) :
  slice (q :: v ++ [q]) 1 (-1) = v.
Proof.
  unfold slice, clampIndex, strlen. cbn [List.length]. rewrite length_app.
  cbn [List.length].
  destruct (Z.ltb_spec 1 0) as [H|_]; [lia|].
  destruct (Z.ltb_spec (-1) 0) as [_|H]; [|lia].
  match goal with
  | |- firstn ?n (skipn ?m _) = _ =>
      replace n with (List.length v) by lia;
      replace m with 1%nat by lia
  end.
  cbn [skipn]. rewrite firstn_app, firstn_all, Nat.sub_diag.
  cbn [firstn]. now rewrite app_nil_r.
Qed.

Lemma startsClean_trimStart (s : jsstring) : startsClean s -> trimStart s = s.
Proof. destruct s as [|c s]; [reflexivity|]. cbn [startsClean trimStart]. now intros ->. Qed.

Lemma startsClean_all (s : jsstring) :
  Forall (fun c => isWhiteSpace c = false) s -> startsClean s /\ startsClean (rev s).
Proof.
  intros H. split.
  - now destruct H.
  - apply Forall_rev in H. now destruct H.
Qed.

Lemma startsClean_app (a b : jsstring) :
  a <> [] -> startsClean a -> startsClean (a ++ b).
Proof. destruct a; [congruence|]. now cbn. Qed.

Lemma trim_clean (s : jsstring) :
  startsClean s -> startsClean (rev s) -> trim s = s.
Proof.
  intros H1 H2. apply trim_fixed; now apply startsClean_trimStart.
Qed.

Lemma startsWith_nil (s : jsstring) : startsWith s [] = true.
Proof. now destruct s. Qed.

Lemma startsWith_absent (q : code_unit) (v : jsstring) :
  ~ In q v -> startsWith v [q] = false.
Proof.
  destruct v as [|c v]; [reflexivity|]. cbn [startsWith In]. intros H.
  destruct (N.eqb_spec q c) as [->|_]; [tauto|reflexivity].
Qed.

Lemma escaped_plain (v : jsstring) :
  ~ In backslash v -> ~ In dquote v -> flat_map escapedUnit v = v.
Proof.
  induction v as [|c v IH]; [reflexivity|]. cbn [In flat_map]. intros Hb Hq.
  rewrite IH by tauto. unfold escapedUnit.
  destruct (N.eqb_spec c backslash) as [->|_]; [tauto|].
  destruct (N.eqb_spec c dquote) as [->|_]; [tauto|]. reflexivity.
Qed.

Lemma unquoted_chars (v : jsstring) :
  needsQuoting v = false ->
  Forall (fun c => isWhiteSpace c = false) v /\ ~ In dquote v /\ ~ In squote v.
Proof.
  unfold needsQuoting. intros H.
  assert (Hall : forall c, In c v -> isSpecial c = false).
  { intros c Hin. destruct (isSpecial c) eqn:E; [|reflexivity].
    rewrite <- H. symmetry. apply existsb_exists. now exists c. }
  repeat split.
  - apply Forall_forall. intros c Hin. specialize (Hall c Hin).
    unfold isSpecial in Hall. rewrite !orb_false_iff in Hall. tauto.
  - intros Hin. specialize (Hall _ Hin). now vm_compute in Hall.
  - intros Hin. specialize (Hall _ Hin). now vm_compute in Hall.
Qed.



Lemma split_line (l rest : jsstring) :
  ~ In LF l -> split LF (l ++ LF :: rest) = l :: split LF rest.
Proof.
  induction l as [|c l IH]; cbn [app split In]; intros H.
  - now rewrite N.eqb_refl.
  - destruct (N.eqb_spec c LF) as [->|_]; [tauto|].
    rewrite IH by tauto. reflexivity.
Qed.

Lemma parse_joined_lines (lines : list jsstring) (env : JsMap) :
  Forall (fun l => ~ In LF l) lines ->
  fold_left parseLine (split LF (join [LF] lines ++ [LF])) env
  = fold_left parseLine lines env.
Proof.
  intros H. revert env. induction H as [|x lines Hx Hlines IH]; intros env.
  - reflexivity.
  - destruct lines as [|y rest].
    + cbn [join]. rewrite (split_line x [] Hx). reflexivity.
    + change (join [LF] (x :: y :: rest)) with (x ++ [LF] ++ join [LF] (y :: rest)).
      rewrite <- !app_assoc. cbn [app].
      rewrite (split_line x _ Hx). cbn [fold_left]. apply IH.
Qed.

Lemma map_set_absent (k v : jsstring) (m : JsMap) :
  ~ In k (map fst m) -> map_set k v m = m ++ [(k, v)].
Proof.
  induction m as [|[k' v'] m IH]; cbn [map fst In map_set app]; [reflexivity|].
  intros H. destruct (str_eqb k' k) eqn:E.
  - apply str_eqb_eq in E. tauto.
  - rewrite IH by tauto. reflexivity.
Qed.

Lemma upserts_distinct (m acc : JsMap) :
  NoDup (map fst acc ++ map fst m) -> fold_left upsert m acc = acc ++ m.
Proof.
  revert acc. induction m as [|[k v] m IH]; intros acc H; cbn [fold_left].
  - now rewrite app_nil_r.
  - unfold upsert at 2. cbn [fst snd map] in *.
    rewrite map_set_absent.
    + rewrite IH; [now rewrite <- app_assoc|].
      rewrite map_app. cbn [map fst]. now rewrite <- app_assoc.
    + apply NoDup_remove_2 in H. intros Hin. apply H. apply in_or_app. now left.
Qed.



(** ** Without a functions directory *)

Lemma getFunctionsDir_unconfigured (w : World) :
  (forall fd, ~ configured w fd) ->
  exists message w',
    getFunctionsDir w = (Throw (Err message), w') /\ root w' = root w.
Proof.
  intros Hno. unfold getFunctionsDir, bind, gets, throw.
  destruct (SUPABASE_FUNCTIONS_DIR w) as [dir|] eqn:Henv; [|now eexists _, _].
  destruct dir as [|c dir]; [now eexists _, _|]. cbn [isEmpty].
  unfold existsSync, bind, emit, gets. rewrite root_record.
  destruct (lookup (root w) (path_resolve (cwd w) (c :: dir))) eqn:Hl.
  - exfalso. apply (Hno (path_resolve (cwd w) (c :: dir))).
    exists (c :: dir). repeat split; congruence.
  - cbn [negb]. now eexists _, _.
Qed.

(** A deploy into a store that is not configured fails and writes
    nothing. *)
Lemma deploy_unconfigured_writes_nothing
  (stringify : list (jsstring * jsstring) -> jsstring)
  (w : World) (a : CreateArgs.t) :
  (forall fd, ~ configured w fd) ->
  exists message w',
    handleCreateEdgeFunction stringify (JsObject a) w
    = (Ok (Failure (Err message)), w')
    /\ root w' = root w.
Proof.
  intros Hno. destruct (getFunctionsDir_unconfigured w Hno) as (message & w' & Hrun & Hroot).
  unfold handleCreateEdgeFunction, destructure, bind at 1, ret at 1.
  unfold tryCatch, bind. rewrite Hrun. now exists message, w'.
Qed.

(** * Further properties *)

(** ** What the computations leave alone *)

Lemma sameSettings_refl (w : World) : sameSettings w w.
Proof. now repeat split. Qed.

Lemma sameSettings_trans (w1 w2 w3 : World) :
  sameSettings w1 w2 -> sameSettings w2 w3 -> sameSettings w1 w3.
Proof.
  unfold sameSettings. intros (a1 & a2 & a3 & a4 & a5) (b1 & b2 & b3 & b4 & b5).
  repeat split; congruence.
Qed.

Lemma sameSettings_record (ev : Event) (w : World) : sameSettings w (record ev w).
Proof. now repeat split. Qed.

Lemma sameSettings_with_root (w : World) (r : Node) : sameSettings w (with_root w r).
Proof. now repeat split. Qed.

Section Combinators.

Context {A B : Type}.

Lemma keepsSettings_ret (a : A) : keepsSettings (ret a).
Proof. intros w. apply sameSettings_refl. Qed.

Lemma keepsSettings_throw (e : Error) : keepsSettings (@throw A e).
Proof. intros w. apply sameSettings_refl. Qed.

Lemma keepsSettings_lift (r : Result A) : keepsSettings (lift r).
Proof. intros w. apply sameSettings_refl. Qed.

Lemma keepsSettings_gets (f : World -> A) : keepsSettings (gets f).
Proof. intros w. apply sameSettings_refl. Qed.

Lemma keepsSettings_bind (m : M A) (k : A -> M B) :
  keepsSettings m -> (forall a, keepsSettings (k a)) -> keepsSettings (bind m k).
Proof.
  intros Hm Hk w. unfold bind. specialize (Hm w).
  destruct (m w) as [[a|e] w1]; cbn [snd] in *; [|exact Hm].
  exact (sameSettings_trans _ _ _ Hm (Hk a w1)).
Qed.

Lemma keepsSettings_tryCatch (m : M A) (h : Error -> M A) :
  keepsSettings m -> (forall e, keepsSettings (h e)) -> keepsSettings (tryCatch m h).
Proof.
  intros Hm Hh w. unfold tryCatch. specialize (Hm w).
  destruct (m w) as [[a|e] w1]; cbn [snd] in *; [exact Hm|].
  exact (sameSettings_trans _ _ _ Hm (Hh e w1)).
Qed.

Lemma keepsFiles_ret (a : A) : keepsFiles (ret a).
Proof. now intros w. Qed.

Lemma keepsFiles_throw (e : Error) : keepsFiles (@throw A e).
Proof. now intros w. Qed.

Lemma keepsFiles_lift (r : Result A) : keepsFiles (lift r).
Proof. now intros w. Qed.

Lemma keepsFiles_gets (f : World -> A) : keepsFiles (gets f).
Proof. now intros w. Qed.

Lemma keepsFiles_bind (m : M A) (k : A -> M B) :
  keepsFiles m -> (forall a, keepsFiles (k a)) -> keepsFiles (bind m k).
Proof.
  intros Hm Hk w. unfold bind. specialize (Hm w).
  destruct (m w) as [[a|e] w1]; cbn [snd] in *; [|exact Hm].
  now rewrite (Hk a w1).
Qed.

Lemma keepsFiles_tryCatch (m : M A) (h : Error -> M A) :
  keepsFiles m -> (forall e, keepsFiles (h e)) -> keepsFiles (tryCatch m h).
Proof.
  intros Hm Hh w. unfold tryCatch. specialize (Hm w).
  destruct (m w) as [[a|e] w1]; cbn [snd] in *; [exact Hm|].
  now rewrite (Hh e w1).
Qed.

End Combinators.

Lemma keepsSettings_mapM {A B} (f : A -> M B) (l : list A) :
  (forall a, keepsSettings (f a)) -> keepsSettings (mapM f l).
Proof.
  intros Hf. induction l as [|x l IH]; cbn [mapM].
  - intros w. apply sameSettings_refl.
  - apply keepsSettings_bind; [apply Hf|]. intros y.
    apply keepsSettings_bind; [exact IH|]. intros ys w. apply sameSettings_refl.
Qed.

Lemma keepsFiles_mapM {A B} (f : A -> M B) (l : list A) :
  (forall a, keepsFiles (f a)) -> keepsFiles (mapM f l).
Proof.
  intros Hf. induction l as [|x l IH]; cbn [mapM].
  - now intros w.
  - apply keepsFiles_bind; [apply Hf|]. intros y.
    apply keepsFiles_bind; [exact IH|]. now intros ys w.
Qed.

Lemma keepsSettings_emit (ev : Event) : keepsSettings (emit ev).
Proof. intros w. apply sameSettings_record. Qed.

Lemma keepsFiles_emit (ev : Event) : keepsFiles (emit ev).
Proof. now intros w. Qed.

Create HintDb settings.
Create HintDb files.

#[local] Hint Resolve keepsSettings_ret keepsSettings_throw keepsSettings_lift
  keepsSettings_gets keepsSettings_emit keepsSettings_bind keepsSettings_tryCatch
  keepsSettings_mapM : settings.
#[local] Hint Resolve keepsFiles_ret keepsFiles_throw keepsFiles_lift
  keepsFiles_gets keepsFiles_emit keepsFiles_bind keepsFiles_tryCatch
  keepsFiles_mapM : files.

(** Steps through the binds of a computation, leaving the calls that are
    not known to the database. *)
Ltac keeps db :=
  repeat first
    [ progress (intros)
    | solve [auto with db]
    | apply keepsSettings_tryCatch | apply keepsFiles_tryCatch
    | apply keepsSettings_mapM | apply keepsFiles_mapM
    | apply keepsSettings_bind | apply keepsFiles_bind
    | match goal with
      | |- keepsSettings (match ?x with _ => _ end) => destruct x
      | |- keepsFiles (match ?x with _ => _ end) => destruct x
      | |- keepsSettings (if ?x then _ else _) => destruct x
      | |- keepsFiles (if ?x then _ else _) => destruct x
      end ].

Lemma keepsSettings_write (m : World -> Errno + Node) (sys : Syscall) (p : Path) :
  keepsSettings (fun w => match m w with
                          | inl e => (@Throw unit (SystemError e sys p), w)
                          | inr r => (Ok tt, with_root w r)
                          end).
Proof.
  intros w. destruct (m w); cbn [snd];
    [apply sameSettings_refl|apply sameSettings_with_root].
Qed.

Lemma fs_calls_keep_settings :
  (forall p, keepsSettings (existsSync p))
  /\ (forall p, keepsSettings (readFileSync p))
  /\ (forall p text, keepsSettings (writeFileSync p text))
  /\ (forall p, keepsSettings (mkdirSync p))
  /\ (forall p, keepsSettings (readdirSync p))
  /\ (forall p, keepsSettings (statSync p))
  /\ (forall p, keepsSettings (rmSync p))
  /\ (forall c, keepsSettings (execSync c)).
Proof.
  repeat split; intros;
    unfold existsSync, readFileSync, writeFileSync, mkdirSync, readdirSync,
      statSync, rmSync, execSync;
    keeps settings;
    first [ apply (keepsSettings_write (fun w => writeAt (root w) p text (now w)))
          | apply (keepsSettings_write (fun w => mkdirp (root w) p (now w)))
          | apply (keepsSettings_write (fun w => rmrf (root w) p)) ].
Qed.

Lemma fs_reads_keep_files :
  (forall p, keepsFiles (existsSync p))
  /\ (forall p, keepsFiles (readFileSync p))
  /\ (forall p, keepsFiles (readdirSync p))
  /\ (forall p, keepsFiles (statSync p))
  /\ (forall c, keepsFiles (execSync c)).
Proof.
  repeat split; intros;
    unfold existsSync, readFileSync, readdirSync, statSync, execSync;
    keeps files.
Qed.

Lemma getFunctionsDir_keeps :
  keepsSettings getFunctionsDir /\ keepsFiles getFunctionsDir.
Proof.
  destruct fs_calls_keep_settings as (He & _). destruct fs_reads_keep_files as (Fe & _).
  split; unfold getFunctionsDir; keeps settings; keeps files.
Qed.

Lemma getEnvPath_keeps : keepsSettings getEnvPath /\ keepsFiles getEnvPath.
Proof.
  destruct getFunctionsDir_keeps as [Hs Hf].
  split; unfold getEnvPath; keeps settings; keeps files.
Qed.

Lemma restartEdgeRuntime_keeps :
  keepsSettings restartEdgeRuntime /\ keepsFiles restartEdgeRuntime.
Proof.
  destruct fs_calls_keep_settings as (_ & _ & _ & _ & _ & _ & _ & Hx).
  destruct fs_reads_keep_files as (_ & _ & _ & _ & Fx).
  split; unfold restartEdgeRuntime; keeps settings; keeps files.
Qed.

Lemma destructure_keeps {T} (prop : jsstring) (args : Unknown T) :
  keepsSettings (destructure prop args) /\ keepsFiles (destructure prop args).
Proof. split; destruct args; cbn [destructure]; auto with settings files. Qed.

Lemma maskEntry_keeps (kv : jsstring * jsstring) :
  keepsSettings (maskEntry kv) /\ keepsFiles (maskEntry kv).
Proof.
  split; destruct kv as [k v]; unfold maskEntry, str_repeat; keeps settings; keeps files.
Qed.

(** No handler changes the environment variable, the working directory,
    the clock, the runtime or the connection. *)
Lemma handlers_keep_settings (stringify : list (jsstring * jsstring) -> jsstring) :
  (forall args, keepsSettings (handleCreateEdgeFunction stringify args))
  /\ keepsSettings handleListEdgeFunctions
  /\ (forall args, keepsSettings (handleDeleteEdgeFunction args))
  /\ (forall args, keepsSettings (handleSetSecret args))
  /\ (forall args, keepsSettings (handleDeleteSecret args))
  /\ keepsSettings handleListSecrets
  /\ (forall args, keepsSettings (handleInvokeEdgeFunction args)).
Proof.
  destruct fs_calls_keep_settings as (He & Hr & Hw & Hm & Hd & Hs & Hrm & Hx).
  destruct getFunctionsDir_keeps as [Hg _]. destruct getEnvPath_keeps as [Hp _].
  destruct restartEdgeRuntime_keeps as [Hrs _].
  assert (Hde : forall T prop (args : Unknown T), keepsSettings (destructure prop args))
    by (intros; apply destructure_keeps).
  assert (Hmask : forall kv, keepsSettings (maskEntry kv))
    by (intros; apply maskEntry_keeps).
  repeat split; intros;
    unfold handleCreateEdgeFunction, handleListEdgeFunctions, handleDeleteEdgeFunction,
      handleSetSecret, handleDeleteSecret, handleListSecrets, handleInvokeEdgeFunction,
      listEntry;
    keeps settings.
  all: intro; apply sameSettings_refl.
Qed.

(** X4.  The two listings and the invocation never change the tree of
    files, whatever they return: on success, on every failure, and for every
    argument. *)
Theorem listings_and_invocation_are_read_only (w : World) :
  root (after (handleListEdgeFunctions w)) = root w
  /\ root (after (handleListSecrets w)) = root w
  /\ (forall args, root (after (handleInvokeEdgeFunction args w)) = root w).
Proof.
  destruct fs_reads_keep_files as (He & Hr & Hd & Hs & Hx).
  destruct getFunctionsDir_keeps as [_ Hg]. destruct getEnvPath_keeps as [_ Hp].
  assert (Hde : forall T prop (args : Unknown T), keepsFiles (destructure prop args))
    by (intros; apply destructure_keeps).
  assert (Hmask : forall kv, keepsFiles (maskEntry kv))
    by (intros; apply maskEntry_keeps).
  assert (H : keepsFiles handleListEdgeFunctions /\ keepsFiles handleListSecrets
              /\ forall args, keepsFiles (handleInvokeEdgeFunction args)).
  { repeat split; intros;
      unfold handleListEdgeFunctions, handleListSecrets, handleInvokeEdgeFunction,
        listEntry;
      keeps files.
    all: intro; reflexivity. }
  destruct H as (H1 & H2 & H3). unfold after.
  split; [apply H1|split; [apply H2|intros args; apply H3]].
Qed.

(** ** Without a functions directory, again *)

Lemma getFunctionsDir_stops (w : World) :
  (forall fd, ~ configured w fd) ->
  exists message w',
    getFunctionsDir w = (Throw (Err message), w')
    /\ configurationError message
    /\ (w' = w \/ exists p, w' = record (EvExists p) w).
Proof.
  intros Hno. unfold getFunctionsDir, bind, gets, throw, configurationError.
  destruct (SUPABASE_FUNCTIONS_DIR w) as [dir|] eqn:Henv.
  2: { eexists _, _. split; [reflexivity|]. split; [now left|now left]. }
  destruct dir as [|c dir].
  { eexists _, _. split; [reflexivity|]. split; [now left|now left]. }
  cbn [isEmpty]. unfold existsSync, bind, emit, gets. rewrite root_record.
  destruct (lookup (root w) (path_resolve (cwd w) (c :: dir))) eqn:Hl.
  - exfalso. apply (Hno (path_resolve (cwd w) (c :: dir))).
    exists (c :: dir). repeat split; congruence.
  - cbn [negb]. eexists _, _. split; [reflexivity|]. split.
    + right. now exists (c :: dir).
    + right. now eexists.
Qed.



(** ** The listing of a store without broken directories *)

Lemma mapM_listEntry_complete (fd : Path) (l : list Dirent) (w : World) :
  (forall e, In e l -> lookup (root w) (indexPath fd (d_name e)) <> None) ->
  exists w',
    root w' = root w
    /\ mapM (listEntry fd) l w
       = (Ok (map (fun e => listedInfo (root w) fd (d_name e)) l), w').
Proof.
  revert w. induction l as [|e l IH]; intros w Hall.
  - now exists w.
  - cbn [mapM map]. unfold bind.
    destruct (listEntry_run fd e w) as (w1 & Hroot1 & ->).
    pose proof (Hall e (or_introl eq_refl)) as He.
    destruct (lookup (root w) (indexPath fd (d_name e))) as [nd|] eqn:Hidx; [|congruence].
    destruct (IH w1) as (w2 & Hroot2 & ->).
    { intros e' Hin. rewrite Hroot1. apply Hall. now right. }
    exists w2. split; [congruence|].
    unfold ret, listedInfo. rewrite Hroot1, Hidx. reflexivity.
Qed.

Lemma directories_of_entries (es : list (jsstring * Node)) :
  map d_name
    (filter isDirectory
       (map (fun e => {| d_name := fst e; isDirectory := node_isDir (snd e) |}) es))
  = subdirectories es.
Proof.
  unfold subdirectories. induction es as [|[k n] es IH]; [reflexivity|].
  cbn [map filter fst snd isDirectory]. destruct (node_isDir n); cbn [map d_name fst];
    now rewrite IH.
Qed.

(** X3.  When every subdirectory of the functions directory has an
    [index.ts], [handleListEdgeFunctions] returns one entry for each
    subdirectory, in the order of the directory and passing over plain files
    such as the secrets file; each entry has the name of the directory,
    [hasIndex] true, [hasImportMap] telling whether [import_map.json] is
    there, and the modification time of [index.ts]. *)
Theorem listing_of_complete_store
  (w : World) (fd : Path) (m : N) (es : list (jsstring * Node)) :
  configured w fd ->
  lookup (root w) fd = Some (Dir m es) ->
  (forall name, In name (subdirectories es) ->
     lookup (root w) (indexPath fd name) <> None) ->
  outcome (handleListEdgeFunctions w)
  = Ok (FunctionList (map (listedInfo (root w) fd) (subdirectories es))).
Proof.
  intros Hc Hdir Hall.
  unfold handleListEdgeFunctions, tryCatch, bind.
  rewrite (getFunctionsDir_configured _ _ Hc). cbv beta iota.
  unfold readdirSync, bind, emit, gets, ret. cbv beta iota.
  rewrite !root_record, Hdir. cbv beta iota.
  match goal with
  | |- context [mapM (listEntry fd) ?l ?w0] =>
      destruct (mapM_listEntry_complete fd l w0) as (w' & _ & ->)
  end.
  - intros e Hin. rewrite !root_record. apply Hall.
    rewrite <- directories_of_entries. now apply in_map.
  - unfold outcome. cbn [fst]. rewrite !root_record.
    rewrite <- directories_of_entries, map_map. reflexivity.
Qed.

Lemma listing_of_complete_store_witness :
  outcome (handleListEdgeFunctions twoFunctionsWorld)
  = Ok (FunctionList
          [ {| FunctionInfo.name := lit "hello"; FunctionInfo.hasIndex := true;
               FunctionInfo.hasImportMap := false; FunctionInfo.updatedAt := 3 |};
            {| FunctionInfo.name := lit "bye"; FunctionInfo.hasIndex := true;
               FunctionInfo.hasImportMap := true; FunctionInfo.updatedAt := 4 |} ]).
Proof.
  apply (listing_of_complete_store twoFunctionsWorld functionsPath 0%N _
           (demo_configured _ _) eq_refl).
  intros name [<-|[<-|[]]]; discriminate.
Defined.

(** ** More on the tree of files *)

Lemma assoc_remove_other (k k' : jsstring) (es : list (jsstring * Node)) :
  k <> k' -> assoc k' (assoc_remove k es) = assoc k' es.
Proof.
  intros Hne. induction es as [|[k0 n0] es IH]; cbn [assoc_remove assoc]; [reflexivity|].
  destruct (str_eqb k0 k) eqn:E; cbn [assoc].
  - apply str_eqb_eq in E. subst k0.
    apply str_eqb_neq in Hne. now rewrite Hne.
  - now rewrite IH.
Qed.

Lemma assoc_not_listed (k : jsstring) (es : list (jsstring * Node)) :
  ~ In k (map fst es) -> assoc k es = None.
Proof.
  induction es as [|[k0 n0] es IH]; cbn [map fst In assoc]; [reflexivity|].
  intros H. destruct (str_eqb k0 k) eqn:E.
  - apply str_eqb_eq in E. tauto.
  - apply IH. tauto.
Qed.

Lemma assoc_remove_gone (k : jsstring) (es : list (jsstring * Node)) :
  NoDup (map fst es) -> assoc k (assoc_remove k es) = None.
Proof.
  induction es as [|[k0 n0] es IH]; cbn [map fst assoc_remove]; [reflexivity|].
  intros Hnd. apply NoDup_cons_iff in Hnd as [Hnot Hnd].
  destruct (str_eqb k0 k) eqn:E.
  - apply str_eqb_eq in E. subst k0. now apply assoc_not_listed.
  - cbn [assoc]. rewrite E. now apply IH.
Qed.

Lemma last_segments_differ (p q : Path) (a b : jsstring) :
  a <> b -> p ++ [a] <> q ++ [b].
Proof. intros Hne E. apply app_inj_tail in E as [_ E]. contradiction. Qed.

(** A write changes no file but the one it writes. *)
Lemma writeAt_other_file (n r : Node) (p q : Path) (text x : jsstring) (t tx : N) :
  writeAt n p text t = inr r ->
  lookup n q = Some (File x tx) -> q <> p ->
  lookup r q = Some (File x tx).
Proof.
  revert n r q. induction p as [|s p IH]; intros n r q; cbn [writeAt].
  - destruct n as [old t0|]; [|discriminate]. intros _.
    destruct q; [congruence|]. cbn [lookup]. discriminate.
  - destruct n as [|m es]; [discriminate|].
    destruct q as [|s' q]; [cbn [lookup]; discriminate|]. cbn [lookup].
    destruct (assoc s es) as [c|] eqn:Ea.
    + destruct (writeAt c p text t) as [e|c'] eqn:Ew; [discriminate|].
      intros [= <-] Hq Hne. cbn [lookup].
      destruct (str_eqb s s') eqn:Es.
      * apply str_eqb_eq in Es. subst s'. rewrite assoc_set_same. rewrite Ea in Hq.
        apply (IH c c' q Ew Hq). congruence.
      * apply str_eqb_neq in Es. now rewrite (assoc_set_other _ _ _ _ Es).
    + destruct p; [|discriminate]. intros [= <-] Hq Hne. cbn [lookup].
      rewrite (assoc_app_new _ _ _ _ Ea).
      destruct (str_eqb s s') eqn:Es; [|exact Hq].
      apply str_eqb_eq in Es. subst s'. now rewrite Ea in Hq.
Qed.

(** [mkdir] changes no file. *)
Lemma mkdirp_other_file (n r : Node) (p q : Path) (x : jsstring) (t tx : N) :
  mkdirp n p t = inr r ->
  lookup n q = Some (File x tx) ->
  lookup r q = Some (File x tx).
Proof.
  revert n r q. induction p as [|s p IH]; intros n r q; cbn [mkdirp].
  - destruct n; [discriminate|]. now intros [= <-].
  - destruct n as [|m es]; [discriminate|].
    destruct q as [|s' q]; [cbn [lookup]; discriminate|]. cbn [lookup].
    destruct (assoc s es) as [c|] eqn:Ea.
    + destruct (mkdirp c p t) as [e|c'] eqn:Em; [discriminate|].
      intros [= <-] Hq. cbn [lookup].
      destruct (str_eqb s s') eqn:Es.
      * apply str_eqb_eq in Es. subst s'. rewrite assoc_set_same. rewrite Ea in Hq.
        exact (IH c c' q Em Hq).
      * apply str_eqb_neq in Es. now rewrite (assoc_set_other _ _ _ _ Es).
    + intros [= <-] Hq. cbn [lookup]. rewrite (assoc_app_new _ _ _ _ Ea).
      destruct (str_eqb s s') eqn:Es; [|exact Hq].
      apply str_eqb_eq in Es. subst s'. now rewrite Ea in Hq.
Qed.



(** Removing what is at a path and below it succeeds unless the path is
    the root. *)
Lemma rmrf_succeeds (n : Node) (p : Path) :
  p <> [] -> exists r, rmrf n p = inr r.
Proof.
  revert n. induction p as [|s p IH]; intros n Hne; [congruence|]. cbn [rmrf].
  destruct n as [|m es]; [now eexists|].
  destruct p as [|s' p]; [now eexists|].
  destruct (assoc s es) as [c|]; [|now eexists].
  destruct (IH c) as [c' ->]; [discriminate|]. now eexists.
Qed.

(** A removal changes no file that is not at the path or below it. *)
Lemma rmrf_other_file (n r : Node) (p q : Path) (x : jsstring) (tx : N) :
  rmrf n p = inr r ->
  lookup n q = Some (File x tx) -> ~ isBelow p q ->
  lookup r q = Some (File x tx).
Proof.
  revert n r q. induction p as [|s p IH]; intros n r q; cbn [rmrf]; [discriminate|].
  destruct n as [|m es]; [now intros [= <-]|].
  destruct q as [|s' q]; [cbn [lookup]; discriminate|].
  intros Hrm Hq Hnot.
  assert (Hcases : s <> s' \/ (s = s' /\ ~ isBelow p q)).
  { destruct (str_eqb s s') eqn:Es.
    - apply str_eqb_eq in Es. subst s'. right. split; [reflexivity|].
      intros [rest ->]. apply Hnot. now exists rest.
    - left. now apply str_eqb_neq. }
  cbn [lookup] in Hq.
  destruct p as [|s2 p].
  - injection Hrm as <-. cbn [lookup].
    destruct Hcases as [Hne|[-> Hb]].
    + now rewrite (assoc_remove_other _ _ _ Hne).
    + exfalso. apply Hb. now exists q.
  - destruct (assoc s es) as [c|] eqn:Ea.
    + destruct (rmrf c (s2 :: p)) as [e|c'] eqn:Er; [discriminate|].
      injection Hrm as <-. cbn [lookup].
      destruct Hcases as [Hne|[<- Hb]].
      * now rewrite (assoc_set_other _ _ _ _ Hne).
      * rewrite assoc_set_same. rewrite Ea in Hq. exact (IH c c' q Er Hq Hb).
    + injection Hrm as <-. exact Hq.
Qed.

(** After a removal there is nothing at the path, when its directory lists
    each name once. *)
Lemma rmrf_gone (n r : Node) (parent : Path) (s : jsstring) (m : N)
  (es : list (jsstring * Node)) :
  lookup n parent = Some (Dir m es) ->
  NoDup (map fst es) ->
  rmrf n (parent ++ [s]) = inr r ->
  lookup r (parent ++ [s]) = None.
Proof.
  revert n r. induction parent as [|a parent IH]; intros n r; cbn [app lookup rmrf].
  - intros [= ->] Hnd [= <-]. cbn [lookup]. now rewrite assoc_remove_gone.
  - destruct n as [|m0 es0]; [discriminate|].
    destruct (assoc a es0) as [c|] eqn:Ea; [|discriminate].
    intros Hdir Hnd. destruct (parent ++ [s]) as [|s2 rest] eqn:Ep.
    { now destruct parent. }
    destruct (rmrf c (s2 :: rest)) as [e|c'] eqn:Er; [discriminate|].
    intros [= <-]. cbn [lookup]. rewrite assoc_set_same.
    exact (IH c c' Hdir Hnd Er).
Qed.

(** ** Deploys and the rest of the store *)

Lemma configured_unique (w : World) (fd fd' : Path) :
  configured w fd -> configured w fd' -> fd = fd'.
Proof.
  intros (d & Hd & _ & -> & _) (d' & Hd' & _ & -> & _). congruence.
Qed.

Lemma configured_or_not (w : World) :
  (exists fd, configured w fd) \/ (forall fd, ~ configured w fd).
Proof.
  destruct (SUPABASE_FUNCTIONS_DIR w) as [[|c dir]|] eqn:Henv.
  - right. intros fd (d & Hd & Hne & _). congruence.
  - destruct (lookup (root w) (path_resolve (cwd w) (c :: dir))) eqn:Hl.
    + left. exists (path_resolve (cwd w) (c :: dir)), (c :: dir).
      repeat split; congruence.
    + right. intros fd (d & Hd & _ & -> & Hex). congruence.
  - right. intros fd (d & Hd & _). congruence.
Qed.

Lemma configured_transfer (w w' : World) (fd : Path) :
  configured w fd -> sameSettings w w' -> lookup (root w') fd <> None ->
  configured w' fd.
Proof.
  intros (d & Hd & Hne & -> & _) (He & Hc & _) Hl.
  exists d. rewrite He, Hc. now repeat split.
Qed.

Lemma unconfigured_transfer (w w' : World) (fd : Path) :
  configured w fd -> sameSettings w w' -> lookup (root w') fd = None ->
  forall fd', ~ configured w' fd'.
Proof.
  intros (d & Hd & Hne & -> & _) (He & Hc & _) Hl fd' (d' & Hd' & _ & -> & Hex).
  rewrite He, Hd in Hd'. injection Hd' as <-. rewrite Hc in Hex. contradiction.
Qed.

Lemma envFile_app (fd : Path) : envFile fd = fd ++ [lit ".env"].
Proof. reflexivity. Qed.

(** X8.  A deploy changes no file but the [index.ts] and the
    [import_map.json] of the function it is given: every other file of the
    tree holds afterwards what it held before, whatever the name, and
    whether the deploy succeeds or fails.  In particular the secrets file
    is as it was. *)
Theorem deploy_changes_no_other_file
  (stringify : list (jsstring * jsstring) -> jsstring)
  (w : World) (a : CreateArgs.t) :
  let w' := after (handleCreateEdgeFunction stringify (JsObject a) w) in
  (forall q x tx,
     lookup (root w) q = Some (File x tx) ->
     (forall fd, configured w fd ->
        q <> indexPath fd (CreateArgs.name a)
        /\ q <> importMapPath fd (CreateArgs.name a)) ->
     lookup (root w') q = Some (File x tx))
  /\ (forall fd x tx,
        configured w fd ->
        lookup (root w) (envFile fd) = Some (File x tx) ->
        lookup (root w') (envFile fd) = Some (File x tx)).
Proof.
  intros w'.
  assert (Hgen : forall q x tx,
             lookup (root w) q = Some (File x tx) ->
             (forall fd, configured w fd ->
                q <> indexPath fd (CreateArgs.name a)
                /\ q <> importMapPath fd (CreateArgs.name a)) ->
             lookup (root w') q = Some (File x tx)).
  { intros q x tx Hq Hne. subst w'.
    destruct (configured_or_not w) as [[fd Hc]|Hno].
    - destruct (Hne fd Hc) as [Hni Hnm].
      destruct (handleCreateEdgeFunction_run stringify w fd a Hc)
        as (envelope & w1 & Hrun & Hsteps).
      rewrite Hrun. unfold after. cbn [snd].
      destruct (mkdirp (root w) (path_join fd (CreateArgs.name a)) (now w))
        as [e1|r1] eqn:E1; [destruct Hsteps as [_ ->]; exact Hq|].
      pose proof (mkdirp_other_file _ _ _ _ _ _ _ E1 Hq) as Hq1.
      destruct (writeAt r1 (indexPath fd (CreateArgs.name a)) (CreateArgs.source a) (now w))
        as [e2|r2] eqn:E2; [destruct Hsteps as [_ ->]; exact Hq1|].
      pose proof (writeAt_other_file _ _ _ _ _ _ _ _ E2 Hq1 Hni) as Hq2.
      destruct (CreateArgs.importMap a) as [[|e m]|];
        try (destruct Hsteps as [_ ->]; exact Hq2).
      destruct (writeAt r2 (importMapPath fd (CreateArgs.name a)) (stringify (e :: m)) (now w))
        as [e3|r3] eqn:E3; destruct Hsteps as [_ ->]; [exact Hq2|].
      exact (writeAt_other_file _ _ _ _ _ _ _ _ E3 Hq2 Hnm).
    - destruct (deploy_unconfigured_writes_nothing stringify w a Hno)
        as (message & w1 & Hrun & Hroot).
      rewrite Hrun. unfold after. cbn [snd]. now rewrite Hroot. }
  split; [exact Hgen|].
  intros fd x tx Hc Henv. apply Hgen; [exact Henv|].
  intros fd' Hc'. rewrite <- (configured_unique w fd fd' Hc Hc').
  rewrite envFile_app, indexPath_app, importMapPath_app.
  split; apply last_segments_differ; discriminate.
Qed.

Lemma deploy_changes_no_other_file_witness :
  lookup (root (after (handleCreateEdgeFunction (fun _ => [])
                         (JsObject {| CreateArgs.name := lit "hello";
                                      CreateArgs.source := lit "new";
                                      CreateArgs.importMap := Some [(lit "a", lit "b")];
                                      CreateArgs.verifyJWT := None |})
                         twoFunctionsWorld)))
    (envFile functionsPath)
  = Some (File (lit "A=1") 1).
Proof.
  apply (proj2 (deploy_changes_no_other_file (fun _ => []) twoFunctionsWorld _)
           functionsPath (lit "A=1") 1%N (demo_configured _ _) eq_refl).
Defined.





(** ** Deleting a function *)

Lemma handleDeleteEdgeFunction_run (w : World) (fd : Path) (name : jsstring) :
  configured w fd ->
  exists envelope w',
    handleDeleteEdgeFunction (JsObject {| DeleteArgs.name := name |}) w = (Ok envelope, w')
    /\ match lookup (root w) (path_join fd name) with
       | None =>
           envelope = Failure (Err (lit "Function '" ++ name ++ lit "' not found"))
           /\ w' = record (EvExists (path_join fd name)) (record (EvExists fd) w)
       | Some _ =>
           match rmrf (root w) (path_join fd name) with
           | inl e =>
               envelope = Failure (SystemError e sys_rm (path_join fd name))
               /\ root w' = root w
           | inr r =>
               envelope = FunctionDeleted
                            (lit "Edge Function '" ++ name ++ lit "' deleted successfully")
               /\ root w' = r
           end
       end.
Proof.
  intros Hc.
  unfold handleDeleteEdgeFunction, destructure, bind at 1, ret at 1.
  cbn [DeleteArgs.name].
  unfold tryCatch, bind. rewrite (getFunctionsDir_configured _ _ Hc). cbv beta iota.
  unfold existsSync, rmSync, bind, emit, gets, ret. cbv beta iota.
  rewrite !root_record.
  destruct (lookup (root w) (path_join fd name)) as [nd|]; cbn [negb].
  - cbn [root record]. destruct (rmrf (root w) (path_join fd name)) as [e|r];
      eexists _, _; (split; [reflexivity|]); now split.
  - eexists _, _. split; [reflexivity|]. now split.
Qed.

Lemma delete_function_again (w : World) (fd : Path) (name : jsstring) :
  configured w fd ->
  lookup (root w) (path_join fd name) = None ->
  outcome (handleDeleteEdgeFunction (JsObject {| DeleteArgs.name := name |}) w)
  = Ok (Failure (Err (lit "Function '" ++ name ++ lit "' not found"))).
Proof.
  intros Hc Hnone.
  destruct (handleDeleteEdgeFunction_run w fd name Hc) as (envelope & w' & Hrun & Hcase).
  rewrite Hnone in Hcase. destruct Hcase as [-> _]. unfold outcome. now rewrite Hrun.
Qed.

(** X5.  Deleting a function that is not there returns the not-found error
    object; the only calls made are the two existence tests, and nothing is
    removed. *)
Theorem delete_function_not_found (w : World) (fd : Path) (name : jsstring) :
  configured w fd ->
  lookup (root w) (path_join fd name) = None ->
  handleDeleteEdgeFunction (JsObject {| DeleteArgs.name := name |}) w
  = (Ok (Failure (Err (lit "Function '" ++ name ++ lit "' not found"))),
     record (EvExists (path_join fd name)) (record (EvExists fd) w)).
Proof.
  intros Hc Hnone.
  destruct (handleDeleteEdgeFunction_run w fd name Hc) as (envelope & w' & Hrun & Hcase).
  rewrite Hnone in Hcase. destruct Hcase as [-> ->]. exact Hrun.
Qed.

Lemma delete_function_not_found_witness :
  outcome (handleDeleteEdgeFunction (JsObject {| DeleteArgs.name := lit "nope" |}) helloWorld)
  = Ok (Failure (Err (lit "Function 'nope' not found"))).
Proof.
  unfold outcome.
  rewrite (delete_function_not_found helloWorld functionsPath (lit "nope")
             (demo_configured _ _) eq_refl).
  reflexivity.
Defined.

(** X6.  Deleting a function that is there returns the success object and
    removes its directory with everything below it, and nothing else: every
    file outside the directory is as it was.  A second delete of the same
    name then returns an error object. *)
Theorem delete_function_removes_directory
  (w : World) (fd parent : Path) (name s : jsstring) (m : N)
  (es : list (jsstring * Node)) :
  configured w fd ->
  path_join fd name = parent ++ [s] ->
  lookup (root w) parent = Some (Dir m es) ->
  NoDup (map fst es) ->
  lookup (root w) (path_join fd name) <> None ->
  let run := handleDeleteEdgeFunction (JsObject {| DeleteArgs.name := name |}) w in
  outcome run
  = Ok (FunctionDeleted (lit "Edge Function '" ++ name ++ lit "' deleted successfully"))
  /\ lookup (root (after run)) (path_join fd name) = None
  /\ (forall q x tx,
        lookup (root w) q = Some (File x tx) ->
        ~ isBelow (path_join fd name) q ->
        lookup (root (after run)) q = Some (File x tx))
  /\ (exists e,
        outcome (handleDeleteEdgeFunction (JsObject {| DeleteArgs.name := name |})
                   (after run))
        = Ok (Failure e)).
Proof.
  intros Hc Hpath Hparent Hnd Hex run.
  pose proof (proj1 (proj2 (proj2 (handlers_keep_settings (fun _ => []))))
                (JsObject {| DeleteArgs.name := name |}) w) as Hset.
  fold run in Hset. fold (after run) in Hset.
  destruct (handleDeleteEdgeFunction_run w fd name Hc) as (envelope & w' & Hrun & Hcase).
  assert (Hafter : after run = w') by (subst run; now rewrite Hrun).
  assert (Hout : outcome run = Ok envelope) by (subst run; now rewrite Hrun).
  rewrite Hafter in *. rewrite Hout. clear Hafter Hout.
  destruct (lookup (root w) (path_join fd name)) as [nd|] eqn:Hl; [|congruence].
  destruct (rmrf_succeeds (root w) (path_join fd name)) as [r Hr].
  { rewrite Hpath. now destruct parent. }
  rewrite Hr in Hcase. destruct Hcase as [-> Hroot].
  assert (Hgone : lookup (root w') (path_join fd name) = None).
  { rewrite Hroot, Hpath. rewrite Hpath in Hr.
    exact (rmrf_gone _ _ _ _ _ _ Hparent Hnd Hr). }
  repeat split.
  - exact Hgone.
  - intros q x tx Hq Hnot. rewrite Hroot.
    exact (rmrf_other_file _ _ _ _ _ _ Hr Hq Hnot).
  - destruct (lookup (root w') fd) eqn:Hfd.
    + assert (Hc' : configured w' fd).
      { apply (configured_transfer w w' fd Hc Hset). congruence. }
      rewrite (delete_function_again w' fd name Hc' Hgone). now eexists.
    + pose proof (unconfigured_transfer w w' fd Hc Hset Hfd) as Hno.
      destruct (getFunctionsDir_stops w' Hno) as (message & w2 & Hrun2 & _).
      unfold handleDeleteEdgeFunction, destructure, tryCatch, bind, ret, outcome.
      rewrite Hrun2. now eexists.
Qed.

Lemma twoFunctions_names :
  NoDup (map fst [(lit ".env", File (lit "A=1") 1);
                  (lit "hello", Dir 2 [(lit "index.ts", File (lit "h") 3)]);
                  (lit "bye", Dir 2 [(lit "index.ts", File (lit "b") 4);
                                     (lit "import_map.json", File (lit "{}") 4)])]).
Proof.
  repeat constructor; cbn [map fst In]; intros H;
    repeat (destruct H as [H|H]; [discriminate H|]); exact H.
Qed.

Lemma delete_function_removes_directory_witness :
  outcome (handleDeleteEdgeFunction (JsObject {| DeleteArgs.name := lit "hello" |})
             twoFunctionsWorld)
  = Ok (FunctionDeleted (lit "Edge Function 'hello' deleted successfully"))
  /\ lookup (root (after (handleDeleteEdgeFunction
                            (JsObject {| DeleteArgs.name := lit "hello" |})
                            twoFunctionsWorld)))
       (path_join functionsPath (lit "hello"))
     = None.
Proof.
  destruct (delete_function_removes_directory twoFunctionsWorld functionsPath
              functionsPath (lit "hello") (lit "hello") 0%N _
              (demo_configured _ _) eq_refl eq_refl twoFunctions_names
              ltac:(discriminate))
    as (Hout & Hgone & _).
  split; [exact Hout|exact Hgone].
Defined.

(** X7.  The name of a function is not checked.  With a name that
    [path.join] resolves to the functions directory itself, such as the
    empty string or a single dot, [handleDeleteEdgeFunction] removes the
    functions directory with everything in it: the secrets file is gone, and
    the store is no longer configured. *)
Theorem delete_with_empty_name_removes_store
  (w : World) (fd parent : Path) (name s : jsstring) (m : N)
  (es : list (jsstring * Node)) :
  configured w fd ->
  path_join fd name = fd ->
  fd = parent ++ [s] ->
  lookup (root w) parent = Some (Dir m es) ->
  NoDup (map fst es) ->
  let run := handleDeleteEdgeFunction (JsObject {| DeleteArgs.name := name |}) w in
  outcome run
  = Ok (FunctionDeleted (lit "Edge Function '" ++ name ++ lit "' deleted successfully"))
  /\ lookup (root (after run)) (envFile fd) = None
  /\ (forall fd', ~ configured (after run) fd').
Proof.
  intros Hc Hjoin Hfd Hparent Hnd run.
  pose proof (proj1 (proj2 (proj2 (handlers_keep_settings (fun _ => []))))
                (JsObject {| DeleteArgs.name := name |}) w) as Hset.
  fold run in Hset. fold (after run) in Hset.
  destruct (handleDeleteEdgeFunction_run w fd name Hc) as (envelope & w' & Hrun & Hcase).
  assert (Hafter : after run = w') by (subst run; now rewrite Hrun).
  assert (Hout : outcome run = Ok envelope) by (subst run; now rewrite Hrun).
  rewrite Hafter in *. rewrite Hout. clear Hafter Hout.
  rewrite Hjoin in Hcase.
  pose proof Hc as (d & _ & _ & _ & Hex).
  destruct (lookup (root w) fd) as [nd|] eqn:Hl; [|congruence].
  destruct (rmrf_succeeds (root w) fd) as [r Hr].
  { rewrite Hfd. now destruct parent. }
  rewrite Hr in Hcase. destruct Hcase as [-> Hroot].
  assert (Hgone : lookup (root w') fd = None).
  { rewrite Hroot. rewrite Hfd in Hr |- *.
    exact (rmrf_gone _ _ _ _ _ _ Hparent Hnd Hr). }
  repeat split.
  - rewrite envFile_app, lookup_app, Hgone. reflexivity.
  - exact (unconfigured_transfer w w' fd Hc Hset Hgone).
Qed.

Lemma delete_with_empty_name_removes_store_witness :
  lookup (root (after (handleDeleteEdgeFunction (JsObject {| DeleteArgs.name := [] |})
                         twoFunctionsWorld)))
    (envFile functionsPath)
  = None.
Proof.
  apply (delete_with_empty_name_removes_store twoFunctionsWorld functionsPath
           [lit "srv"] [] (lit "functions") 0%N _
           (demo_configured _ _) eq_refl eq_refl eq_refl).
  repeat constructor. intros [].
Defined.

(** ** Setting and deleting secrets *)

Lemma map_has_false (k : jsstring) (m : JsMap) :
  map_has k m = false <-> ~ In k (map fst m).
Proof.
  induction m as [|[k' v'] m IH]; cbn [map_has map fst In]; [tauto|].
  rewrite orb_false_iff, IH, str_eqb_neq. tauto.
Qed.




(** X11.  [handleDeleteSecret] returns an error object, and neither writes
    nor restarts, when there is no secrets file and when the file does not
    have the key: the calls made are the existence tests and, in the second
    case, the read of the file. *)
Theorem delete_secret_not_found (w : World) (fd : Path) (key : jsstring) :
  configured w fd ->
  (lookup (root w) (envFile fd) = None ->
   handleDeleteSecret (JsObject {| DeleteSecretArgs.key := key |}) w
   = (Ok (Failure (Err (lit "No secrets file exists"))),
      record (EvExists (envFile fd)) (record (EvExists fd) w)))
  /\ (forall text,
        secretsFileIs w fd text ->
        map_has key (parseEnvFile text) = false ->
        handleDeleteSecret (JsObject {| DeleteSecretArgs.key := key |}) w
        = (Ok (Failure (Err (lit "Secret '" ++ key ++ lit "' not found"))),
           listingWorld w fd)).
Proof.
  intros Hc. split.
  - intros Hnone.
    unfold handleDeleteSecret, destructure, bind at 1, ret at 1.
    cbn [DeleteSecretArgs.key].
    unfold tryCatch, bind. rewrite (getEnvPath_configured _ _ Hc). cbv beta iota.
    unfold existsSync, bind, emit, gets, ret. cbv beta iota.
    rewrite !root_record, Hnone. reflexivity.
  - intros text (_ & t & Hfile) Hhas.
    unfold handleDeleteSecret, destructure, bind at 1, ret at 1.
    cbn [DeleteSecretArgs.key].
    unfold tryCatch, bind. rewrite (getEnvPath_configured _ _ Hc). cbv beta iota.
    unfold existsSync, readFileSync, bind, emit, gets, ret. cbv beta iota.
    rewrite !root_record, Hfile. cbv beta iota. cbn [negb].
    rewrite !root_record, Hfile. cbv beta iota. rewrite Hhas. reflexivity.
Qed.

Lemma delete_secret_not_found_witness :
  outcome (handleDeleteSecret (JsObject {| DeleteSecretArgs.key := lit "B" |})
             (secretsWorld (lit "A=1") true))
  = Ok (Failure (Err (lit "Secret 'B' not found"))).
Proof.
  unfold outcome.
  rewrite (proj2 (delete_secret_not_found (secretsWorld (lit "A=1") true) functionsPath
                    (lit "B") (demo_configured _ _))
             (lit "A=1") (secretsWorld_file _ _) eq_refl).
  reflexivity.
Defined.

Lemma firstOccurrences_once (ks : list jsstring) : NoDup (firstOccurrences ks).
Proof.
  induction ks as [|k ks IH]; cbn [firstOccurrences]; constructor.
  - intros Hin. apply filter_In in Hin as [_ Hne].
    now rewrite str_eqb_refl in Hne.
  - now apply NoDup_filter.
Qed.

(** The mapping [parseEnvFile] returns has each key once. *)
Lemma parseEnvFile_keys_once (content : jsstring) :
  NoDup (map fst (parseEnvFile content)).
Proof.
  rewrite parseEnvFile_entries, upserts_keys. apply firstOccurrences_once.
Qed.

Lemma withoutKey_absent (key : jsstring) (m : JsMap) :
  ~ In key (map fst m) -> withoutKey key m = m.
Proof.
  unfold withoutKey. induction m as [|[k v] m IH]; cbn [map fst In filter]; [reflexivity|].
  intros H. destruct (str_eqb k key) eqn:E.
  - apply str_eqb_eq in E. tauto.
  - cbn [negb]. rewrite IH by tauto. reflexivity.
Qed.

Lemma map_delete_withoutKey (key : jsstring) (m : JsMap) :
  NoDup (map fst m) -> map_delete key m = withoutKey key m.
Proof.
  unfold withoutKey. induction m as [|[k v] m IH]; cbn [map fst map_delete filter];
    [reflexivity|].
  intros Hnd. apply NoDup_cons_iff in Hnd as [Hnot Hnd].
  destruct (str_eqb k key) eqn:E; cbn [negb].
  - apply str_eqb_eq in E. subst k. symmetry. now apply withoutKey_absent.
  - now rewrite IH.
Qed.

Lemma handleDeleteSecret_result (w : World) (fd : Path) (key : jsstring) (r : Node) :
  configured w fd ->
  map_has key (loadedEnv w fd) = true ->
  writeAt (root w) (envFile fd)
    (serializeEnvFile (map_delete key (loadedEnv w fd))) (now w) = inr r ->
  exists w',
    handleDeleteSecret (JsObject {| DeleteSecretArgs.key := key |}) w
    = (Ok (SecretDeleted (deletedMessage key) (dockerRestarts w)
             (deletedNote (dockerRestarts w))), w')
    /\ root w' = r.
Proof.
  intros Hc Hhas Hw.
  unfold handleDeleteSecret, destructure, bind at 1, ret at 1.
  cbn [DeleteSecretArgs.key].
  unfold tryCatch, bind. rewrite (getEnvPath_configured _ _ Hc). cbv beta iota.
  unfold existsSync, readFileSync, writeFileSync, bind, emit, gets, ret.
  cbv beta iota. rewrite !root_record.
  unfold loadedEnv in Hw, Hhas.
  destruct (lookup (root w) (envFile fd)) as [[text t0|m es]|] eqn:Hfile;
    try discriminate.
  cbv beta iota. cbn [negb root now record]. rewrite Hfile. cbv beta iota.
  rewrite Hhas. cbn [negb root now record]. rewrite Hw.
  rewrite restartEdgeRuntime_run.
  eexists. split; reflexivity.
Qed.

(** X12.  When the secrets file has the key, [handleDeleteSecret] rewrites
    the file with the entries of every other key, in their order and with
    the values as they were parsed, and without any entry of the key; it
    then restarts the runtime and reports the outcome of the restart in the
    success object. *)
Theorem delete_secret_removes_the_key
  (w : World) (fd : Path) (text key : jsstring) :
  secretsFileIs w fd text ->
  map_has key (parseEnvFile text) = true ->
  let run := handleDeleteSecret (JsObject {| DeleteSecretArgs.key := key |}) w in
  outcome run
  = Ok (SecretDeleted (deletedMessage key) (dockerRestarts w)
          (deletedNote (dockerRestarts w)))
  /\ lookup (root (after run)) (envFile fd)
     = Some (File (serializeEnvFile (withoutKey key (parseEnvFile text))) (now w))
  /\ map_has key (withoutKey key (parseEnvFile text)) = false.
Proof.
  intros Hs Hhas run.
  pose proof (loadedEnv_of_file _ _ _ Hs) as Hload.
  pose proof (map_delete_withoutKey key _ (parseEnvFile_keys_once text)) as Hdel.
  destruct Hs as (Hc & t & Hfile).
  destruct (writeAt_over_file (root w) (envFile fd) text
              (serializeEnvFile (withoutKey key (parseEnvFile text))) t (now w) Hfile)
    as [r Hw].
  rewrite <- Hdel, <- Hload in Hw. rewrite <- Hload in Hhas.
  destruct (handleDeleteSecret_result w fd key r Hc Hhas Hw) as (w' & Hrun & Hroot).
  subst run. rewrite Hrun. unfold outcome, after. cbn [fst snd].
  repeat split.
  - rewrite Hroot, <- Hdel, <- Hload. exact (writeAt_lookup _ _ _ _ _ Hw).
  - apply map_has_false. unfold withoutKey. intros Hin.
    apply in_map_iff in Hin as ([k v] & Hk & Hin). cbn [fst] in Hk. subst k.
    apply filter_In in Hin as [_ Hne]. cbn [fst] in Hne.
    now rewrite str_eqb_refl in Hne.
Qed.

Lemma delete_secret_removes_the_key_witness :
  lookup (root (after (handleDeleteSecret (JsObject {| DeleteSecretArgs.key := lit "A" |})
                         (secretsWorld (lit "A=1" ++ [LF] ++ lit "B=2" ++ [LF] ++ lit "A=3")
                            true))))
    (envFile functionsPath)
  = Some (File (lit "B=2" ++ [LF]) 7).
Proof.
  exact (proj1 (proj2 (delete_secret_removes_the_key _ functionsPath _ (lit "A")
                         (secretsWorld_file
                            (lit "A=1" ++ [LF] ++ lit "B=2" ++ [LF] ++ lit "A=3") true)
                         eq_refl))).
Defined.

(** ** Stores of plain values *)



Lemma map_delete_In (key k v : jsstring) (m : JsMap) :
  In (k, v) (map_delete key m) -> In (k, v) m.
Proof.
  induction m as [|[k' v'] m IH]; cbn [map_delete In]; [tauto|].
  destruct (str_eqb k' key); cbn [In]; tauto.
Qed.


Lemma plainMapping_delete (m : JsMap) (key : jsstring) :
  plainMapping m -> plainMapping (map_delete key m).
Proof.
  intros [Hnd Hall]. split.
  - rewrite (map_delete_withoutKey key m Hnd). unfold withoutKey.
    clear Hall. induction m as [|[k v] m IH]; cbn [filter map fst]; [constructor|].
    cbn [map fst] in Hnd. apply NoDup_cons_iff in Hnd as [Hnot Hnd].
    destruct (negb (str_eqb k key)); cbn [map fst]; [|now apply IH].
    constructor; [|now apply IH].
    intros Hin. apply Hnot. apply in_map_iff in Hin as (e & He & Hin).
    apply in_map_iff. exists e. split; [exact He|]. now apply filter_In in Hin.
  - intros k v Hin. apply Hall. now apply (map_delete_In key).
Qed.













(** ** More on the codec *)

Lemma split_nonempty (sep : code_unit) (s : jsstring) : split sep s <> [].
Proof.
  destruct s as [|c s]; cbn [split]; [discriminate|].
  destruct (c =? sep)%N; [discriminate|]. destruct (split sep s); discriminate.
Qed.

Lemma split_app (a b : jsstring) :
  split LF (a ++ LF :: b) = split LF a ++ split LF b.
Proof.
  induction a as [|c a IH]; cbn [app split].
  - now rewrite N.eqb_refl.
  - destruct (c =? LF)%N; rewrite IH; [reflexivity|].
    pose proof (split_nonempty LF a) as Hne.
    destruct (split LF a) as [|l ls]; [congruence|]. reflexivity.
Qed.

Lemma split_one_line (l : jsstring) : ~ In LF l -> split LF l = [l].
Proof.
  induction l as [|c l IH]; cbn [split In]; [reflexivity|]. intros H.
  destruct (N.eqb_spec c LF) as [->|_]; [tauto|]. rewrite IH by tauto. reflexivity.
Qed.

Lemma parseLine_ignored (env : JsMap) (line : jsstring) :
  ignoredLine line = true -> parseLine env line = env.
Proof.
  unfold ignoredLine, parseLine. intros H.
  destruct (isEmpty (trim line) || startsWith (trim line) [hash]); [reflexivity|].
  cbn [orb] in H. now rewrite H.
Qed.

Lemma map_set_not_empty (k v : jsstring) (m : JsMap) : map_set k v m <> [].
Proof.
  destruct m as [|[k' v'] m]; cbn [map_set]; [discriminate|].
  destruct (str_eqb k' k); discriminate.
Qed.

Lemma lineEntry_of_counted_line (line : jsstring) :
  ignoredLine line = false -> lineEntry line <> None.
Proof.
  unfold ignoredLine, lineEntry, parseLine. intros H.
  apply orb_false_iff in H as [H1 H2]. rewrite H1, H2.
  match goal with |- context [map_set ?k ?v []] => cbn [map_set] end. discriminate.
Qed.

(** X16.  [parseEnvFile] passes over blank lines, lines whose first
    character after the white space is a hash, and lines without an equals
    sign: such a line, wherever it stands in the file, changes nothing of the
    mapping; every other line contributes an entry. *)
Theorem ignored_lines_do_not_count (line : jsstring) :
  ~ In LF line ->
  (ignoredLine line = true ->
   forall before rest,
     parseEnvFile (before ++ [LF] ++ line ++ [LF] ++ rest)
     = parseEnvFile (before ++ [LF] ++ rest)
     /\ parseEnvFile (line ++ [LF] ++ rest) = parseEnvFile rest
     /\ parseEnvFile (before ++ [LF] ++ line) = parseEnvFile before)
  /\ (ignoredLine line = false -> exists k v, parseEnvFile line = [(k, v)]).
Proof.
  intros Hlf. split.
  - intros Hign before rest. unfold parseEnvFile. cbn [app].
    rewrite !split_app, (split_one_line line Hlf), !fold_left_app.
    cbn [fold_left]. rewrite !parseLine_ignored by exact Hign. repeat split.
  - intros Hcount. unfold parseEnvFile. rewrite (split_one_line line Hlf).
    cbn [fold_left]. unfold ignoredLine in Hcount.
    apply orb_false_iff in Hcount as [H1 H2]. unfold parseLine. rewrite H1, H2.
    cbn [map_set]. now eexists _, _.
Qed.

Lemma ignored_lines_do_not_count_witness :
  parseEnvFile (lit "A=1" ++ [LF] ++ lit "  # a comment" ++ [LF] ++ lit "B=2")
  = parseEnvFile (lit "A=1" ++ [LF] ++ lit "B=2").
Proof.
  refine (proj1 (proj1 (ignored_lines_do_not_count (lit "  # a comment") _) eq_refl
                   (lit "A=1") (lit "B=2"))).
  intros H; cbn in H; repeat (destruct H as [H|H]; [discriminate H|]); exact H.
Defined.

Lemma escaped_units (c : code_unit) (v : jsstring) :
  In c (flat_map escapedUnit v) -> c = backslash \/ In c v.
Proof.
  induction v as [|x v IH]; cbn [flat_map In]; [tauto|].
  rewrite in_app_iff. unfold escapedUnit at 1.
  destruct (N.eqb_spec x backslash) as [->|_];
    [|destruct (N.eqb_spec x dquote) as [->|_]]; cbn [In]; intuition.
Qed.

Lemma unquoted_needs_no_escape (v : jsstring) :
  needsQuoting v = false -> flat_map escapedUnit v = v.
Proof.
  unfold needsQuoting. intros H.
  assert (Hall : forall c, In c v -> isSpecial c = false).
  { intros c Hin. destruct (isSpecial c) eqn:E; [|reflexivity].
    rewrite <- H. symmetry. apply existsb_exists. now exists c. }
  apply escaped_plain; intros Hin; specialize (Hall _ Hin); now vm_compute in Hall.
Qed.

(** The line of an entry, for a value without line feed: what follows the
    equals sign and what the parser makes of it. *)
Lemma entryLine_shape_escaped (k v : jsstring) :
  ~ In LF v ->
  exists body,
    entryLine (k, v) = k ++ equals :: body
    /\ startsClean body /\ startsClean (rev body)
    /\ ~ In LF body
    /\ (if (startsWith body [dquote] && endsWith body [dquote])
           || (startsWith body [squote] && endsWith body [squote])
        then slice body 1 (-1) else body) = flat_map escapedUnit v.
Proof.
  intros Hl. unfold entryLine, quotedLine, plainLine. cbn [fst snd].
  destruct (needsQuoting v) eqn:E.
  - exists (dquote :: flat_map escapedUnit v ++ [dquote]). repeat split.
    + cbn [rev]. rewrite rev_app_distr. reflexivity.
    + intros [H|H]; [discriminate H|].
      apply in_app_iff in H as [H|[H|[]]]; [|discriminate H].
      destruct (escaped_units _ _ H) as [Hb|Hin]; [discriminate Hb|tauto].
    + unfold endsWith. cbn [rev]. rewrite rev_app_distr.
      cbn [rev app startsWith]. rewrite N.eqb_refl, !startsWith_nil.
      cbn [andb orb]. apply slice_unquote.
  - exists v. destruct (unquoted_chars v E) as (Hws & Hnq & Hns).
    destruct (startsClean_all v Hws) as [H1 H2].
    repeat split; try assumption.
    rewrite (startsWith_absent dquote v Hnq), (startsWith_absent squote v Hns).
    cbn [andb orb]. symmetry. now apply unquoted_needs_no_escape.
Qed.

Lemma parseLine_entryLine_escaped (env : JsMap) (k v : jsstring) :
  validKey k = true -> ~ In LF v ->
  parseLine env (entryLine (k, v)) = map_set k (flat_map escapedUnit v) env.
Proof.
  intros Hk Hv.
  destruct (entryLine_shape_escaped k v Hv) as (body & -> & Hb1 & Hb2 & _ & Hvalue).
  destruct (validKey_chars k Hk) as [Hne Hchars].
  assert (Hws : Forall (fun c => isWhiteSpace c = false) k).
  { eapply Forall_impl; [|exact Hchars]. intros c Hc. apply (keyChar_facts c Hc). }
  assert (Heq : Forall (fun c => c <> equals) k).
  { eapply Forall_impl; [|exact Hchars]. intros c Hc. apply (keyChar_facts c Hc). }
  destruct (startsClean_all k Hws) as [Hk1 Hk2].
  assert (Htrim : trim (k ++ equals :: body) = k ++ equals :: body).
  { apply trim_clean.
    - now apply startsClean_app.
    - rewrite rev_app_distr. cbn [rev]. rewrite <- app_assoc. cbn [app].
      destruct (rev body) as [|c b] eqn:Eb; [reflexivity|exact Hb2]. }
  unfold parseLine. rewrite Htrim.
  destruct k as [|c0 k0] eqn:Ek; [congruence|]. rewrite <- Ek in *.
  assert (Hhead : isEmpty (k ++ equals :: body) || startsWith (k ++ equals :: body) [hash]
                  = false).
  { rewrite Ek. cbn [app isEmpty startsWith orb].
    rewrite Ek in Hchars. apply Forall_inv in Hchars.
    destruct (keyChar_facts c0 Hchars) as (_ & _ & Hh & _).
    destruct (N.eqb_spec hash c0) as [E|_]; [congruence|reflexivity]. }
  rewrite Hhead, (indexOf_first equals k body Heq).
  destruct (Z.eqb_spec (Z.of_nat (List.length k)) (-1)) as [H|_]; [lia|].
  rewrite slice_prefix, sliceFrom_suffix.
  rewrite (trim_clean k Hk1 Hk2), (trim_clean body Hb1 Hb2), Hvalue.
  reflexivity.
Qed.

Lemma entryLine_one_line_escaped (k v : jsstring) :
  validKey k = true -> ~ In LF v -> ~ In LF (entryLine (k, v)).
Proof.
  intros Hk Hv.
  destruct (entryLine_shape_escaped k v Hv) as (body & -> & _ & _ & Hlf & _).
  destruct (validKey_chars k Hk) as [_ Hchars].
  intros Hin. apply in_app_iff in Hin as [Hin|[Hin|Hin]].
  - rewrite Forall_forall in Hchars.
    destruct (keyChar_facts _ (Hchars _ Hin)) as (_ & _ & _ & H). congruence.
  - discriminate Hin.
  - contradiction.
Qed.

Lemma length_escaped_strict (v : jsstring) :
  In backslash v \/ In dquote v ->
  (List.length v < List.length (flat_map escapedUnit v))%nat.
Proof.
  induction v as [|c v IH]; cbn [In flat_map]; [tauto|].
  rewrite length_app. cbn [List.length]. pose proof (length_escaped v) as Hle.
  unfold escapedUnit at 1.
  destruct (N.eqb_spec c backslash) as [->|Hb]; [cbn [List.length]; lia|].
  destruct (N.eqb_spec c dquote) as [->|Hq]; [cbn [List.length]; lia|].
  intros [[H|H]|[H|H]]; try congruence; cbn [List.length];
    assert (List.length v < List.length (flat_map escapedUnit v))%nat by (apply IH; tauto);
    lia.
Qed.

Lemma escaped_fixed (v : jsstring) :
  flat_map escapedUnit v = v -> ~ In backslash v /\ ~ In dquote v.
Proof.
  intros E. apply (f_equal (@List.length _)) in E.
  split; intros H;
    assert (List.length v < List.length (flat_map escapedUnit v))%nat
      by (apply length_escaped_strict; tauto);
    lia.
Qed.

Lemma parse_of_serialized (m : JsMap) :
  NoDup (map fst m) ->
  (forall k v, In (k, v) m -> validKey k = true /\ ~ In LF v) ->
  parseEnvFile (serializeEnvFile m) = map escapedEntry m.
Proof.
  intros Hnd Hm.
  unfold parseEnvFile, serializeEnvFile. rewrite serialize_loop. cbn [app].
  fold entryLine. change (fun kv : jsstring * jsstring => entryLine kv) with entryLine.
  rewrite parse_joined_lines.
  - assert (Hkeys : map fst (map escapedEntry m) = map fst m).
    { rewrite map_map. apply map_ext. now intros [k v]. }
    assert (Hfold : fold_left upsert (map escapedEntry m) [] = map escapedEntry m).
    { apply (upserts_distinct _ []). cbn [map app]. congruence. }
    rewrite <- Hfold. clear Hkeys Hfold. generalize (@nil (jsstring * jsstring)) as env.
    clear Hnd. induction m as [|[k v] m IH]; intros env; [reflexivity|].
    cbn [map fold_left].
    destruct (Hm k v (or_introl eq_refl)) as [Hk Hv].
    rewrite (parseLine_entryLine_escaped env k v Hk Hv).
    unfold upsert at 2, escapedEntry at 2. cbn [fst snd].
    apply IH. intros k' v' Hin. apply Hm. now right.
  - apply Forall_forall. intros l Hin. apply in_map_iff in Hin as ([k v] & <- & Hin).
    destruct (Hm k v Hin) as [Hk Hv]. now apply entryLine_one_line_escaped.
Qed.

(** X17.  What the codec gives back: for valid, pairwise distinct keys and
    values without line feed, [parseEnvFile] of [serializeEnvFile] has the
    same keys in the same order, and each value escaped once, every
    backslash doubled and every double quote with a backslash in front.  It
    is the mapping itself exactly when no value has a backslash or a double
    quote. *)
Theorem round_trip_escapes_once (m : JsMap) :
  NoDup (map fst m) ->
  (forall k v, In (k, v) m -> validKey k = true /\ ~ In LF v) ->
  parseEnvFile (serializeEnvFile m) = map escapedEntry m
  /\ (parseEnvFile (serializeEnvFile m) = m
      <-> forall k v, In (k, v) m -> ~ In backslash v /\ ~ In dquote v).
Proof.
  intros Hnd Hm.
  pose proof (parse_of_serialized m Hnd Hm) as Hrt.
  split; [exact Hrt|]. rewrite Hrt. clear Hrt Hnd Hm. split.
  - induction m as [|[k0 v0] m IH]; intros Heq k v Hin; [destruct Hin|].
    cbn [map] in Heq. injection Heq as Hv0 Hrest.
    destruct Hin as [[= <- <-]|Hin]; [|exact (IH Hrest k v Hin)].
    cbn [snd] in Hv0. now apply escaped_fixed.
  - intros Hplain. induction m as [|[k v] m IH]; [reflexivity|]. cbn [map].
    unfold escapedEntry at 1. cbn [fst snd].
    destruct (Hplain k v (or_introl eq_refl)) as [Hb Hq].
    rewrite (escaped_plain v Hb Hq). f_equal. apply IH.
    intros k' v' Hin. apply (Hplain k' v'). now right.
Qed.

Lemma round_trip_escapes_once_witness :
  parseEnvFile (serializeEnvFile [(lit "A", lit "a\b c"); (lit "B", lit "x")])
  = [(lit "A", lit "a\\b c"); (lit "B", lit "x")].
Proof.
  refine (proj1 (round_trip_escapes_once
                   [(lit "A", lit "a\b c"); (lit "B", lit "x")] _ _)).
  - repeat constructor; cbn [In]; intros H;
      repeat (destruct H as [H|H]; [discriminate H|]); exact H.
  - intros k v [[= <- <-]|[[= <- <-]|[]]]; (split; [reflexivity|]);
      intros H; cbn in H; repeat (destruct H as [H|H]; [discriminate H|]); exact H.
Defined.



(** ** White space around a line *)

Lemma trimStart_pad (pad s : jsstring) :
  forallb isWhiteSpace pad = true -> trimStart (pad ++ s) = trimStart s.
Proof.
  induction pad as [|c pad IH]; cbn [forallb app trimStart]; [reflexivity|].
  intros H. apply andb_true_iff in H as [Hc Hpad]. rewrite Hc. now apply IH.
Qed.

Lemma trimStart_white (s : jsstring) :
  trimStart s = [] <-> forallb isWhiteSpace s = true.
Proof.
  induction s as [|c s IH]; cbn [trimStart forallb]; [tauto|].
  destruct (isWhiteSpace c); cbn [andb]; [exact IH|]. split; discriminate.
Qed.

Lemma trimStart_app (s p : jsstring) :
  trimStart s <> [] -> trimStart (s ++ p) = trimStart s ++ p.
Proof.
  induction s as [|c s IH]; cbn [trimStart app]; [congruence|].
  destruct (isWhiteSpace c); [exact IH|reflexivity].
Qed.

Lemma forallb_rev {A} (f : A -> bool) (l : list A) :
  forallb f l = true -> forallb f (rev l) = true.
Proof.
  rewrite !forallb_forall. intros H x Hin. apply H. now apply in_rev.
Qed.

Lemma trimEnd_pad (s pad : jsstring) :
  forallb isWhiteSpace pad = true -> trimEnd (s ++ pad) = trimEnd s.
Proof.
  intros H. unfold trimEnd. rewrite rev_app_distr.
  now rewrite (trimStart_pad (rev pad) (rev s) (forallb_rev _ _ H)).
Qed.

Lemma trim_pad (pad1 s pad2 : jsstring) :
  forallb isWhiteSpace pad1 = true -> forallb isWhiteSpace pad2 = true ->
  trim (pad1 ++ s ++ pad2) = trim s.
Proof.
  intros H1 H2. unfold trim. rewrite (trimStart_pad pad1 _ H1).
  destruct (trimStart s) as [|c t] eqn:E.
  - apply trimStart_white in E.
    assert (Hall : forallb isWhiteSpace (s ++ pad2) = true).
    { rewrite forallb_app. now rewrite E, H2. }
    apply trimStart_white in Hall. now rewrite Hall.
  - rewrite trimStart_app by congruence. rewrite E. now apply trimEnd_pad.
Qed.

Lemma parseLine_pad (env : JsMap) (pad1 line pad2 : jsstring) :
  forallb isWhiteSpace pad1 = true -> forallb isWhiteSpace pad2 = true ->
  parseLine env (pad1 ++ line ++ pad2) = parseLine env line.
Proof.
  intros H1 H2. unfold parseLine. now rewrite (trim_pad pad1 line pad2 H1 H2).
Qed.

(** X19.  White space before and after a line does not matter to
    [parseEnvFile], since each line is trimmed first.  In particular a file
    with a carriage return before each line feed gives the mapping of the
    file without them. *)
Theorem surrounding_white_space_is_ignored :
  (forall env pad1 line pad2,
     forallb isWhiteSpace pad1 = true -> forallb isWhiteSpace pad2 = true ->
     parseLine env (pad1 ++ line ++ pad2) = parseLine env line)
  /\ (forall lines,
        Forall (fun l => ~ In LF l) lines ->
        parseEnvFile (join [LF] (map (fun l => l ++ [CR]) lines) ++ [LF])
        = parseEnvFile (join [LF] lines ++ [LF])).
Proof.
  split; [exact parseLine_pad|].
  intros lines Hlines. unfold parseEnvFile.
  rewrite (parse_joined_lines lines [] Hlines).
  rewrite parse_joined_lines.
  - generalize (@nil (jsstring * jsstring)) as env. clear Hlines.
    induction lines as [|l lines IH]; intros env; [reflexivity|].
    cbn [map fold_left].
    rewrite <- (app_nil_l (l ++ [CR])), (parseLine_pad env [] l [CR] eq_refl eq_refl).
    apply IH.
  - apply Forall_forall. intros l Hin. apply in_map_iff in Hin as (l0 & <- & Hin).
    rewrite Forall_forall in Hlines. intros H.
    apply in_app_iff in H as [H|[H|[]]]; [exact (Hlines l0 Hin H)|discriminate H].
Qed.

Lemma surrounding_white_space_is_ignored_witness :
  parseEnvFile (lit "A=1" ++ [CR; LF] ++ lit "B=2" ++ [CR; LF])
  = parseEnvFile (lit "A=1" ++ [LF] ++ lit "B=2" ++ [LF]).
Proof.
  refine (proj2 surrounding_white_space_is_ignored [lit "A=1"; lit "B=2"] _).
  repeat constructor; intros H; cbn in H;
    repeat (destruct H as [H|H]; [discriminate H|]); exact H.
Defined.

(** ** The first deploy of a function *)







(** ** Invocation and dispatch *)

(** X21.  [handleInvokeEdgeFunction] calls the backend once, with the
    payload as body and the headers when they are given, and turns its
    answer into the object it returns: the result on success, the error
    object with the message of the backend when the answer carries an error,
    and the error object when the call is rejected.  When the client cannot
    be obtained the backend is not called. *)
Theorem invoke_reports_the_backend_answer
  (w : World) (a : InvokeArgs.t) (connection : Connection) :
  getConnection w = Ok connection ->
  (forall client,
     getSupabaseClient connection = Ok client ->
     handleInvokeEdgeFunction (JsObject a) w
     = (Ok (invokedEnvelope (InvokeArgs.name a)
              (functions_invoke client (InvokeArgs.name a)
                 {| body := InvokeArgs.payload a; headers := InvokeArgs.headers a |})),
        record (EvInvoke (InvokeArgs.name a)) w))
  /\ (forall e,
        getSupabaseClient connection = Throw e ->
        handleInvokeEdgeFunction (JsObject a) w = (Ok (Failure e), w)).
Proof.
  intros Hconn. split.
  - intros client Hclient.
    unfold handleInvokeEdgeFunction, destructure, bind at 1, ret at 1.
    unfold bind at 1. rewrite Hconn.
    unfold tryCatch, bind, lift, emit, ret. rewrite Hclient.
    destruct (functions_invoke client (InvokeArgs.name a) _) as [[d [msg|]]|e];
      reflexivity.
  - intros e Hclient.
    unfold handleInvokeEdgeFunction, destructure, bind at 1, ret at 1.
    unfold bind at 1. rewrite Hconn.
    unfold tryCatch, bind, lift, emit, ret. now rewrite Hclient.
Qed.

Lemma invoke_reports_the_backend_answer_witness :
  outcome (handleInvokeEdgeFunction
             (JsObject {| InvokeArgs.name := lit "hello";
                          InvokeArgs.payload := Some (lit "{}");
                          InvokeArgs.headers := None |})
             connectedWorld)
  = Ok (Invoked (lit "{}") (lit "Edge Function 'hello' invoked successfully")).
Proof.
  unfold outcome.
  rewrite (proj1 (invoke_reports_the_backend_answer connectedWorld _ echoConnection eq_refl)
             _ eq_refl).
  reflexivity.
Defined.




